(** * Version parsing and ordering of [pip/_vendor/packaging/version.py]

    A shallow embedding of the module, function by function, followed by
    the properties of its ordering, its string forms and its accessors.

    Conventions of the embedding.
    - A Python [str] is a Rocq [string]; a character is read as the code
      point of the same number.  The character tables below ([is_space],
      [lower_char], ...) are the ASCII part of Python's tables, so the
      model speaks about ASCII text (code points below 128).
    - A Python [int] is a [Z]; [int(...)] of a digit string has no size
      limit.
    - A Python exception is a value of [exn] carried by the error monad
      [exc]; a function that cannot raise is a plain function.
    - Values whose type is only known at run time (the fields of a
      comparison key, the [pre]/[post]/[dev] fields) are values of
      [pyval], with Python's rich comparison written out on them. *)

From Stdlib Require Import ZArith List Bool Ascii String DecimalString Lia.
From Stdlib Require OrderedTypeEx NArith.
Import ListNotations.

Local Open Scope string_scope.
Local Open Scope list_scope.

(* ================================================================= *)
(** ** Exceptions *)

Inductive exn : Type :=
| TypeError
| ValueError
| AttributeError
| IndexError
| InvalidVersion.

Inductive exc (A : Type) : Type :=
| Return (a : A)
| Raise (e : exn).

Arguments Return {A} a.
Arguments Raise {A} e.

Definition bind {A B : Type} (c : exc A) (k : A -> exc B) : exc B :=
  match c with
  | Return a => k a
  | Raise e => Raise e
  end.

Notation "x <- c ;; k" := (bind c (fun x => k))
  (at level 61, c at next level, right associativity).

Fixpoint mapM {A B : Type} (f : A -> exc B) (l : list A) : exc (list B) :=
  match l with
  | [] => Return []
  | x :: l' => y <- f x ;; ys <- mapM f l' ;; Return (y :: ys)
  end.

(* ================================================================= *)
(** ** Characters and the [str] methods the module calls *)

Definition code (c : ascii) : nat := nat_of_ascii c.

Definition in_range (lo hi : nat) (c : ascii) : bool :=
  Nat.leb lo (code c) && Nat.leb (code c) hi.

(** [0-9] *)
Definition is_digit (c : ascii) : bool := in_range 48 57 c.
(** [a-z] *)
Definition is_lower (c : ascii) : bool := in_range 97 122 c.
(** [A-Z] *)
Definition is_upper (c : ascii) : bool := in_range 65 90 c.

(** Whitespace of [\s] on ASCII text: tab, line feed, vertical tab, form
    feed, carriage return, the four separators 0x1c-0x1f and the
    space. *)
Definition is_space (c : ascii) : bool :=
  in_range 9 13 c || in_range 28 32 c.

Definition lower_char (c : ascii) : ascii :=
  if is_upper c then ascii_of_nat (code c + 32) else c.

(** [s.lower()] *)
Fixpoint lower (s : string) : string :=
  match s with
  | EmptyString => EmptyString
  | String c r => String (lower_char c) (lower r)
  end.

Fixpoint all_chars (p : ascii -> bool) (s : string) : bool :=
  match s with
  | EmptyString => true
  | String c r => p c && all_chars p r
  end.

(** [s.isdigit()]: at least one character, all of them digits. *)
Definition isdigit (s : string) : bool :=
  match s with
  | EmptyString => false
  | _ => all_chars is_digit s
  end.

(** [c in s] for a one-character [c]. *)
Fixpoint contains_char (c : ascii) (s : string) : bool :=
  match s with
  | EmptyString => false
  | String d r => Ascii.eqb c d || contains_char c r
  end.

(** [sep.join(parts)] *)
Definition join (sep : string) (parts : list string) : string :=
  String.concat sep parts.

(** [s.split(sep)] for a one-character separator: every occurrence
    splits, empty pieces are kept.  [cur] is the piece being read. *)
Fixpoint split_on (p : ascii -> bool) (cur : string) (s : string)
  : list string :=
  match s with
  | EmptyString => [cur]
  | String c r =>
      if p c then cur :: split_on p EmptyString r
      else split_on p (cur ++ String c EmptyString) r
  end.

Definition str_split (sep : ascii) (s : string) : list string :=
  split_on (Ascii.eqb sep) EmptyString s.

(** [s.split(sep, 1)]: the text before the first separator, and the text
    after it when there is one. *)
Fixpoint str_split1 (sep : ascii) (s : string) : string * option string :=
  match s with
  | EmptyString => (EmptyString, None)
  | String c r =>
      if Ascii.eqb sep c then (EmptyString, Some r)
      else let '(a, b) := str_split1 sep r in (String c a, b)
  end.

Fixpoint zeros (n : nat) : string :=
  match n with
  | O => EmptyString
  | S m => String "0" (zeros m)
  end.

(** [s.zfill(width)]: zeros on the left up to [width]; a leading sign
    stays in front. *)
Definition zfill (width : nat) (s : string) : string :=
  let pad := zeros (width - String.length s) in
  match s with
  | String c r =>
      if Ascii.eqb c "+" || Ascii.eqb c "-" then String c (pad ++ r)
      else pad ++ s
  | EmptyString => pad
  end.

(** [str(n)] for an [int]. *)
Definition str_of_int (z : Z) : string :=
  NilZero.string_of_int (Z.to_int z).

Definition digit_value (c : ascii) : Z := Z.of_nat (code c - 48).

(** The digits of an [int(...)] literal: digits, with single underscores
    allowed between two digits. *)
Fixpoint digits_value (acc : Z) (after_digit : bool) (s : string)
  : option Z :=
  match s with
  | EmptyString => if after_digit then Some acc else None
  | String c r =>
      if is_digit c then digits_value (10 * acc + digit_value c)%Z true r
      else if Ascii.eqb c "_" && after_digit then digits_value acc false r
      else None
  end.

(** The whitespace that [int] skips around an ASCII literal: tab, line
    feed, vertical tab, form feed, carriage return and the space (the
    separators 0x1c-0x1f are not skipped). *)
Definition is_blank (c : ascii) : bool :=
  in_range 9 13 c || Nat.eqb (code c) 32.

Fixpoint lstrip (s : string) : string :=
  match s with
  | String c r => if is_blank c then lstrip r else s
  | EmptyString => EmptyString
  end.

Fixpoint rstrip (s : string) : string :=
  match s with
  | EmptyString => EmptyString
  | String c r =>
      match rstrip r with
      | EmptyString => if is_blank c then EmptyString else String c EmptyString
      | r' => String c r'
      end
  end.

(** [int(s)] for a [str]: surrounding whitespace is dropped, one sign is
    allowed, anything else than decimal digits raises [ValueError]. *)
Definition int_of_str (s : string) : exc Z :=
  let t := rstrip (lstrip s) in
  let '(neg, body) :=
    match t with
    | String c r =>
        if Ascii.eqb c "-" then (true, r)
        else if Ascii.eqb c "+" then (false, r)
        else (false, t)
    | EmptyString => (false, t)
    end in
  match digits_value 0 false body with
  | Some v => Return (if neg then (- v)%Z else v)
  | None => Raise ValueError
  end.

(* ================================================================= *)
(** ** Run-time values *)

(** Modelled from the spec: the module [_structures] that defines
    [Infinity] is not among the sources.  The spec describes its two
    values as the "maximal" and "minimal" sentinels that "must be
    comparable against real tuples and against each other consistently
    (effectively ±infinity markers)": [Infinity] is above every other
    value, [-Infinity] is below every other value, and each is equal to
    itself only. *)
Inductive sentinel : Type :=
| Infinity
| NegativeInfinity.

(** Modelled from the spec: [-Infinity] is the minimal sentinel, and
    negation swaps the two. *)
Definition sentinel_neg (s : sentinel) : sentinel :=
  match s with
  | Infinity => NegativeInfinity
  | NegativeInfinity => Infinity
  end.

Definition sentinel_eqb (s t : sentinel) : bool :=
  match s, t with
  | Infinity, Infinity | NegativeInfinity, NegativeInfinity => true
  | _, _ => false
  end.

#[warnings="-register-all"]
Inductive pyval : Type :=
| PNone
| PInt (z : Z)
| PStr (s : string)
| PTuple (items : list pyval)
| PSentinel (s : sentinel).

(** [bool(v)] *)
Definition truthy (v : pyval) : bool :=
  match v with
  | PNone => false
  | PInt z => negb (Z.eqb z 0)
  | PStr s => negb (String.eqb s "")
  | PTuple items => match items with [] => false | _ => true end
  | PSentinel _ => true
  end.

(** [a or b] *)
Definition py_or (a b : pyval) : pyval := if truthy a then a else b.

(** *** Rich comparison *)

(** [a == b].  Values of different types are unequal; no comparison by
    [==] raises. *)
Fixpoint py_eq (a b : pyval) {struct a} : bool :=
  match a, b with
  | PNone, PNone => true
  | PInt x, PInt y => Z.eqb x y
  | PStr x, PStr y => String.eqb x y
  | PTuple xs, PTuple ys =>
      (fix items_eq (xs ys : list pyval) {struct xs} : bool :=
         match xs, ys with
         | [], [] => true
         | x :: xs', y :: ys' => py_eq x y && items_eq xs' ys'
         | _, _ => false
         end) xs ys
  | PSentinel s, PSentinel t => sentinel_eqb s t
  | _, _ => false
  end.

Inductive cmpop : Type := OpLt | OpLe | OpEq | OpNe | OpGt | OpGe.

(** The answer of an ordering operator, from a three-way comparison. *)
Definition holds (op : cmpop) (c : comparison) : bool :=
  match op, c with
  | OpLt, Lt | OpLe, Lt | OpLe, Eq | OpEq, Eq => true
  | OpNe, Lt | OpNe, Gt | OpGt, Gt | OpGe, Gt | OpGe, Eq => true
  | _, _ => false
  end.

(** Modelled from the spec: a sentinel against another value.  The
    maximal sentinel is greater than anything but itself, the minimal
    one smaller than anything but itself. *)
Definition sentinel_compare (s : sentinel) (other : pyval) : comparison :=
  match s, other with
  | Infinity, PSentinel Infinity => Eq
  | NegativeInfinity, PSentinel NegativeInfinity => Eq
  | Infinity, _ => Gt
  | NegativeInfinity, _ => Lt
  end.

(** [a op b] for the six comparison operators.  [int] against [int],
    [str] against [str] (by code points) and tuple against tuple are
    ordered; a tuple comparison looks for the first position where the
    items differ by [==] and answers with the operator on those two
    items, or on the lengths when one tuple is a prefix of the other.
    Any other pair of types under [<], [<=], [>], [>=] is a
    [TypeError]. *)
Fixpoint py_richcompare (op : cmpop) (a b : pyval) {struct a} : exc bool :=
  match op with
  | OpEq => Return (py_eq a b)
  | OpNe => Return (negb (py_eq a b))
  | _ =>
      match a, b with
      | PSentinel s, _ => Return (holds op (sentinel_compare s b))
      | _, PSentinel t => Return (holds op (CompOpp (sentinel_compare t a)))
      | PInt x, PInt y => Return (holds op (Z.compare x y))
      | PStr x, PStr y => Return (holds op (String.compare x y))
      | PTuple xs, PTuple ys =>
          (fix items_cmp (xs ys : list pyval) {struct xs} : exc bool :=
             match xs, ys with
             | x :: xs', y :: ys' =>
                 if py_eq x y then items_cmp xs' ys'
                 else py_richcompare op x y
             | _, _ =>
                 Return (holds op (Nat.compare (List.length xs)
                                               (List.length ys)))
             end) xs ys
      | _, _ => Raise TypeError
      end
  end.

(** *** [repr] and [str] *)

Definition hex_digit (n : nat) : ascii :=
  match String.get n "0123456789abcdef" with
  | Some c => c
  | None => "0"%char
  end.

(** One character inside [repr] of a [str] delimited by [quote]. *)
Definition repr_char (quote c : ascii) : string :=
  let one (d : ascii) := String d EmptyString in
  let bs := "\"%char in
  if Ascii.eqb c quote || Ascii.eqb c bs then String bs (one c)
  else if Nat.eqb (code c) 9 then String bs "t"
  else if Nat.eqb (code c) 10 then String bs "n"
  else if Nat.eqb (code c) 13 then String bs "r"
  else if Nat.ltb (code c) 32 || Nat.eqb (code c) 127 then
    String bs (String "x" (String (hex_digit (code c / 16))
                                  (one (hex_digit (code c mod 16)))))
  else one c.

Fixpoint repr_chars (quote : ascii) (s : string) : string :=
  match s with
  | EmptyString => EmptyString
  | String c r => repr_char quote c ++ repr_chars quote r
  end.

(** [repr(s)] for a [str]: single quotes, unless the text has a single
    quote and no double quote. *)
Definition repr_str (s : string) : string :=
  let sq := "'"%char in
  let dq := ascii_of_nat 34 in
  let quote := if contains_char sq s && negb (contains_char dq s)
               then dq else sq in
  String quote (repr_chars quote s ++ String quote EmptyString).

(** [repr(v)].  The printed form of the sentinels is modelled from their
    names. *)
Fixpoint py_repr (v : pyval) : string :=
  match v with
  | PNone => "None"
  | PInt z => str_of_int z
  | PStr s => repr_str s
  | PTuple items =>
      match items with
      | [x] => "(" ++ py_repr x ++ ",)"
      | _ => "(" ++ join ", " (map py_repr items) ++ ")"
      end
  | PSentinel Infinity => "Infinity"
  | PSentinel NegativeInfinity => "-Infinity"
  end.

(** [str(v)] *)
Definition py_str (v : pyval) : string :=
  match v with
  | PStr s => s
  | _ => py_repr v
  end.

(* ================================================================= *)
(** ** Regular expressions of the [re] module *)

(** The constructs the module's three patterns use.  A character class
    is a predicate, so that case-insensitive matching is part of the
    class.  [Alt] tries its left side first and [Star] is greedy, as the
    backtracking matcher of [re] does. *)
Inductive regex : Type :=
| Empty
| Char (p : ascii -> bool)
| Cat (r1 r2 : regex)
| Alt (r1 r2 : regex)
| Star (r : regex)
| Group (name : string) (r : regex)
| Bol
| Eol.

(** [r?] *)
Definition Opt (r : regex) : regex := Alt r Empty.
(** [r+] *)
Definition Plus (r : regex) : regex := Cat r (Star r).

Fixpoint seq (rs : list regex) : regex :=
  match rs with
  | [] => Empty
  | r :: rs' => Cat r (seq rs')
  end.

(** A literal character. *)
Definition lit (c : ascii) : regex := Char (Ascii.eqb c).
(** A literal character under [re.IGNORECASE]. *)
Definition lit_i (c : ascii) : regex :=
  Char (fun x => Ascii.eqb (lower_char x) (lower_char c)).
(** A literal word under [re.IGNORECASE]. *)
Fixpoint word_i (w : string) : regex :=
  match w with
  | EmptyString => Empty
  | String c w' => Cat (lit_i c) (word_i w')
  end.

(** [w1|w2|...] under [re.IGNORECASE]; the last word closes the
    alternation. *)
Fixpoint words_i (ws : list string) : regex :=
  match ws with
  | [] => Empty
  | [w] => word_i w
  | w :: ws' => Alt (word_i w) (words_i ws')
  end.

(** The groups of a match: [m.group(name)], [None] for a group that
    took no part in the match.  A group without a name is named by its
    number. *)
Definition groups : Type := string -> option string.

Definition no_groups : groups := fun _ => None.

Definition set_group (name text : string) (g : groups) : groups :=
  fun n => if String.eqb n name then Some text else g n.

(** The text between the position of [s] and the later position of
    [s'] in the same subject. *)
Definition consumed (s s' : string) : string :=
  substring 0 (String.length s - String.length s') s.

Section Matcher.
Context {A : Type}.
(** Length of the whole subject, for [^]. *)
Variable subject_length : nat.

(** The greedy repetition of [body]: one more iteration first, the
    continuation [k] when that fails.  An iteration that consumed
    nothing is given up (no repeated expression of this module can
    match the empty text), so every iteration shortens the text and
    [fuel = S (length s)] is never used up. *)
Fixpoint star_loop
         (body : string -> groups -> (string -> groups -> option A)
                 -> option A)
         (k : string -> groups -> option A)
         (fuel : nat) (s : string) (g : groups) : option A :=
  match fuel with
  | O => k s g
  | S fuel' =>
      match body s g
              (fun s' g' =>
                 if Nat.ltb (String.length s') (String.length s)
                 then star_loop body k fuel' s' g' else None) with
      | Some x => Some x
      | None => k s g
      end
  end.

(** [re_match r s g k]: match [r] at the front of [s] with the groups
    [g] set so far, then hand the rest of the text and the groups to
    [k]; when [k] fails, the next way of matching [r] is tried. *)
Fixpoint re_match (r : regex) (s : string) (g : groups)
         (k : string -> groups -> option A) {struct r} : option A :=
  match r with
  | Empty => k s g
  | Char p =>
      match s with
      | String c s' => if p c then k s' g else None
      | EmptyString => None
      end
  | Cat r1 r2 => re_match r1 s g (fun s1 g1 => re_match r2 s1 g1 k)
  | Alt r1 r2 =>
      match re_match r1 s g k with
      | Some x => Some x
      | None => re_match r2 s g k
      end
  | Star r1 => star_loop (re_match r1) k (S (String.length s)) s g
  | Group name r1 =>
      re_match r1 s g (fun s' g' => k s' (set_group name (consumed s s') g'))
  | Bol => if Nat.eqb (String.length s) subject_length then k s g else None
  | Eol =>
      (* the end of the text, or just before a final line feed *)
      match s with
      | EmptyString => k s g
      | String c EmptyString => if Nat.eqb (code c) 10 then k s g else None
      | _ => None
      end
  end.
End Matcher.

(** A match object: the text before the match, the matched text, the
    text after it, and the groups. *)
Record re_Match : Type := {
  m_before : string;
  m_text : string;
  m_after : string;
  m_groups : groups
}.

(** [pattern.search(subject)]: the first position, from the left, where
    the pattern matches.  [before] is the text already skipped. *)
Fixpoint search_from (r : regex) (subject_length : nat)
         (before s : string) : option re_Match :=
  match re_match subject_length r s no_groups
          (fun s' g' => Some (s', g')) with
  | Some (s', g') =>
      Some {| m_before := before; m_text := consumed s s';
              m_after := s'; m_groups := g' |}
  | None =>
      match s with
      | EmptyString => None
      | String c s' =>
          search_from r subject_length (before ++ String c EmptyString) s'
      end
  end.

Definition re_search (r : regex) (s : string) : option re_Match :=
  search_from r (String.length s) EmptyString s.

(** [pattern.split(s)] for a pattern with one capturing group, numbered
    1: the text between the matches, with the text of the group after
    each piece.  Every match of the module's pattern has at least one
    character, so the rest gets shorter and [fuel = S (length s)] is
    enough. *)
Fixpoint split_loop (r : regex) (fuel : nat) (s : string) : list string :=
  match fuel with
  | O => [s]
  | S fuel' =>
      match search_from r (String.length s) EmptyString s with
      | Some m =>
          let g1 := match m_groups m "1" with Some t => t | None => "" end in
          m_before m :: g1 :: split_loop r fuel' (m_after m)
      | None => [s]
      end
  end.

Definition re_split (r : regex) (s : string) : list string :=
  split_loop r (S (String.length s)) s.

(** [pattern.split(s)] for a pattern without groups. *)
Fixpoint split_loop0 (r : regex) (fuel : nat) (s : string) : list string :=
  match fuel with
  | O => [s]
  | S fuel' =>
      match search_from r (String.length s) EmptyString s with
      | Some m => m_before m :: split_loop0 r fuel' (m_after m)
      | None => [s]
      end
  end.

Definition re_split0 (r : regex) (s : string) : list string :=
  split_loop0 r (S (String.length s)) s.

(* ================================================================= *)
(** ** The legacy scheme *)

(** [r"(\d+ | [a-z]+ | \.| -)"] under [re.VERBOSE]. *)
Definition _legacy_version_component_re : regex :=
  Group "1" (Alt (Plus (Char is_digit))
            (Alt (Plus (Char is_lower))
            (Alt (lit ".") (lit "-")))).

Definition _legacy_version_replacement_map : list (string * string) :=
  [("pre", "c"); ("preview", "c"); ("-", "final-"); ("rc", "c"); ("dev", "@")].

(** [d.get(key, default)] *)
Fixpoint dict_get (d : list (string * string)) (key default : string)
  : string :=
  match d with
  | [] => default
  | (k, v) :: d' => if String.eqb k key then v else dict_get d' key default
  end.

Definition _replace_legacy_component (component : string) : string :=
  dict_get _legacy_version_replacement_map component component.

(** What the loop of [_parse_version_parts] yields for one piece of the
    split. *)
Definition version_part (part : string) : list string :=
  let part := _replace_legacy_component part in
  match part with
  | EmptyString => []
  | String c _ =>
      if String.eqb part "." then []
      else if contains_char c "0123456789" then [zfill 8 part]
      else [("*" ++ part)%string]
  end.

(** The parts the generator yields, in order. *)
Definition _parse_version_parts (s : string) : list string :=
  flat_map version_part (re_split _legacy_version_component_re s)
  ++ ["*final"].

(** [while parts and parts[-1] == x: parts.pop()] *)
Fixpoint pop_while (x : string) (parts : list string) : list string :=
  match parts with
  | [] => []
  | p :: ps =>
      match pop_while x ps with
      | [] => if String.eqb p x then [] else [p]
      | ps' => p :: ps'
      end
  end.

(** The closure [extract_parts] of [_legacy_cmpkey]; the list [parts] it
    updates is passed in and returned. *)
Definition extract_parts (parts : list string) (part : string)
  : list string :=
  let parts :=
    if String.ltb part "*final" then pop_while "*final-" parts else parts in
  let parts := pop_while "00000000" parts in
  parts ++ [part].

Definition _legacy_cmpkey (version : string) : pyval :=
  let epoch := (-1)%Z in
  let parts :=
    fold_left
      (fun parts part =>
         if String.prefix "*" part then extract_parts parts part
         else extract_parts parts part)
      (_parse_version_parts (lower version)) [] in
  PTuple [PInt epoch; PTuple (map PStr parts)].

Module LegacyVersion.
Record t : Type := { _version : string; _key : pyval }.

Definition __init__ (version : string) : t :=
  {| _version := version; _key := _legacy_cmpkey version |}.

Definition __str__ (self : t) : string := _version self.
Definition public (self : t) : string := _version self.
Definition base_version (self : t) : string := _version self.
Definition local (self : t) : option string := None.
Definition is_prerelease (self : t) : bool := false.
Definition is_postrelease (self : t) : bool := false.
End LegacyVersion.

(* ================================================================= *)
(** ** The structured scheme *)

(** [_Version], the named tuple of parsed pieces. *)
Record _Version : Type := {
  epoch : Z;
  release : list Z;
  dev : pyval;
  pre : pyval;
  post : pyval;
  local : option (list pyval)
}.

(** [[0-9]+] *)
Definition digits : regex := Plus (Char is_digit).
(** [[-_\.]?] *)
Definition opt_sep : regex := Opt (Char (fun c => contains_char c "-_.")).
(** [[a-z0-9]+] under [re.IGNORECASE] *)
Definition alnums : regex :=
  Plus (Char (fun c => is_lower (lower_char c) || is_digit c)).

Definition epoch_re : regex :=
  Opt (Cat (Group "epoch" digits) (lit "!")).

Definition release_re : regex :=
  Group "release" (Cat digits (Star (Cat (lit ".") digits))).

Definition pre_re : regex :=
  Opt (Group "pre"
    (seq [opt_sep;
          Group "pre_l"
            (Group "5" (words_i ["a"; "b"; "c"; "rc"; "alpha"; "beta";
                                 "pre"; "preview"]));
          opt_sep;
          Opt (Group "pre_n" digits)])).

Definition post_re : regex :=
  Opt (Group "post"
    (Alt (Cat (lit "-") (Group "post_n1" digits))
         (seq [opt_sep;
               Group "post_l" (words_i ["post"; "rev"; "r"]);
               opt_sep;
               Opt (Group "post_n2" digits)]))).

Definition dev_re : regex :=
  Opt (Group "dev"
    (seq [opt_sep;
          Group "dev_l" (word_i "dev");
          opt_sep;
          Opt (Group "dev_n" digits)])).

Definition local_re : regex :=
  Opt (Cat (lit "+")
           (Group "local"
              (Cat alnums
                   (Star (Cat (Char (fun c => contains_char c "-_."))
                              alnums))))).

(** [VERSION_PATTERN], read under [re.VERBOSE | re.IGNORECASE]. *)
Definition VERSION_PATTERN : regex :=
  seq [Opt (lit_i "v");
       seq [epoch_re; release_re; pre_re; post_re; dev_re];
       local_re].

(** [_parse_letter_version(letter, number)] *)
Definition normalize_letter_version (letter : string) : string :=
  let letter := lower letter in
  if String.eqb letter "alpha" then "a"
  else if String.eqb letter "beta" then "b"
  else if existsb (String.eqb letter) ["c"; "pre"; "preview"] then "rc"
  else if existsb (String.eqb letter) ["rev"; "r"] then "post"
  else letter.

(** Truth value of an optional [str]: [None] and the empty text are
    false. *)
Definition str_truthy (o : option string) : bool :=
  match o with
  | Some s => negb (String.eqb s "")
  | None => false
  end.

Definition _parse_letter_version (letter number : option string)
  : exc pyval :=
  match letter, str_truthy letter with
  | Some l, true =>
      (* [number] becomes the integer 0 when it is [None] *)
      let letter := normalize_letter_version l in
      n <- match number with
           | None => Return 0%Z
           | Some s => int_of_str s
           end ;;
      Return (PTuple [PStr letter; PInt n])
  | _, _ =>
      match number, str_truthy number with
      | Some s, true =>
          n <- int_of_str s ;; Return (PTuple [PStr "post"; PInt n])
      | _, _ => Return (PTuple [PNone; PInt 0])
      end
  end.

(** [r"[\._-]"] *)
Definition _local_version_seperators : regex :=
  Char (fun c => contains_char c "._-").

Definition _parse_local_version (local : option string)
  : exc (option (list pyval)) :=
  match local with
  | Some l =>
      parts <- mapM (fun part =>
                       if negb (isdigit part) then Return (PStr (lower part))
                       else n <- int_of_str part ;; Return (PInt n))
                    (re_split0 _local_version_seperators l) ;;
      Return (Some parts)
  | None => Return None
  end.

(** [itertools.dropwhile(pred, xs)] *)
Fixpoint dropwhile {A : Type} (pred : A -> bool) (xs : list A) : list A :=
  match xs with
  | [] => []
  | x :: xs' => if pred x then dropwhile pred xs' else xs
  end.

(** ["-" in x]: a substring test on a [str], a membership test on a
    tuple; the other values are not containers. *)
Definition contains_dash (x : pyval) : exc bool :=
  match x with
  | PStr s => Return (contains_char "-" s)
  | PTuple items => Return (existsb (py_eq (PStr "-")) items)
  | _ => Raise TypeError
  end.

(** The two last branches that [_cmpkey] has for each of [pre], [post]
    and [dev]: a value that contains ["-"] is split at it, any other
    value is paired with [-Infinity]. *)
Definition marker_key (x : pyval) : exc pyval :=
  dash <- contains_dash x ;;
  if dash then
    match x with
    | PStr s =>
        let parts := str_split "-" s in
        let l := hd EmptyString parts in
        n <- (if Nat.eqb (List.length parts) 2
              then n <- int_of_str (nth 1 parts EmptyString) ;;
                   Return (PInt n)
              else Return (PSentinel (sentinel_neg Infinity))) ;;
        Return (PTuple [PStr l; n])
    | _ => Raise AttributeError
    end
  else Return (PTuple [x; PSentinel (sentinel_neg Infinity)]).

Definition _cmpkey (epoch : Z) (release : list Z) (pre post dev : pyval)
           (local : option (list pyval)) : exc pyval :=
  let release := rev (dropwhile (fun x => Z.eqb x 0) (rev release)) in
  pre <- match pre with
         | PNone =>
             Return (PSentinel (if truthy (py_or post dev) then Infinity
                                else sentinel_neg Infinity))
         | _ =>
             if py_eq pre (PStr "-Infinity") || py_eq pre (PStr "+Infinity")
             then match pre with
                  | PStr s => n <- int_of_str s ;; Return (PInt n)
                  | _ => Raise TypeError
                  end
             else marker_key pre
         end ;;
  post <- match post with
          | PNone => Return (PSentinel (sentinel_neg Infinity))
          | _ => marker_key post
          end ;;
  dev <- match dev with
         | PNone => Return (PSentinel Infinity)
         | _ =>
             if py_eq dev (PStr "-Infinity")
             then Return (PSentinel (sentinel_neg Infinity))
             else marker_key dev
         end ;;
  let local :=
    match local with
    | None => PSentinel (sentinel_neg Infinity)
    | Some items =>
        PTuple (map (fun i =>
                       match i with
                       | PInt _ => PTuple [i; PStr ""]
                       | _ => PTuple [PSentinel (sentinel_neg Infinity); i]
                       end) items)
    end in
  Return (PTuple [PInt epoch; PTuple (map PInt release); pre; post; dev;
                  local]).

(** [x[1]] *)
Definition item1 (x : pyval) : exc pyval :=
  match x with
  | PTuple items =>
      match nth_error items 1 with
      | Some v => Return v
      | None => Raise IndexError
      end
  | PStr s =>
      match String.get 1 s with
      | Some c => Return (PStr (String c EmptyString))
      | None => Raise IndexError
      end
  | _ => Raise TypeError
  end.

(** ["".join(str(x) for x in v)] *)
Definition join_str_items (v : pyval) : exc string :=
  match v with
  | PTuple items => Return (join "" (map py_str items))
  | PStr s => Return s
  | _ => Raise TypeError
  end.

Module Version.
Record t : Type := { _version : _Version; _key : pyval }.

(** [r"^\s*" + VERSION_PATTERN + r"\s*$"] *)
Definition _regex : regex :=
  seq [Bol; Star (Char is_space); VERSION_PATTERN; Star (Char is_space);
       Eol].

Definition __init__ (version : string) : exc t :=
  (* Validate the version and parse it into pieces *)
  match re_search _regex version with
  | None => Raise InvalidVersion
  | Some m =>
      let group := m_groups m in
      (* Store the parsed out pieces of the version *)
      v <- (epoch <- (if str_truthy (group "epoch")
                      then match group "epoch" with
                           | Some e => int_of_str e
                           | None => Raise TypeError
                           end
                      else Return 0%Z) ;;
            release <- match group "release" with
                       | Some r => mapM int_of_str (str_split "." r)
                       | None => Raise AttributeError
                       end ;;
            pre <- _parse_letter_version (group "pre_l") (group "pre_n") ;;
            post <- _parse_letter_version
                      (group "post_l")
                      (if str_truthy (group "post_n1") then group "post_n1"
                       else group "post_n2") ;;
            dev <- _parse_letter_version (group "dev_l") (group "dev_n") ;;
            local <- _parse_local_version (group "local") ;;
            Return {| epoch := epoch; release := release; dev := dev;
                      pre := pre; post := post; local := local |}) ;;
      (* Generate a key which will be used for sorting *)
      key <- _cmpkey (epoch v) (release v) (pre v) (post v) (dev v)
                     (local v) ;;
      Return {| _version := v; _key := key |}
  end.

Definition __str__ (self : t) : exc string :=
  let v := _version self in
  (* Epoch *)
  let parts :=
    if negb (Z.eqb (epoch v) 0) then [(str_of_int (epoch v) ++ "!")%string]
    else [] in
  (* Release segment *)
  let parts := parts ++ [join "." (map str_of_int (release v))] in
  (* Pre-release *)
  parts <- match pre v with
           | PNone => Return parts
           | p => s <- join_str_items p ;; Return (parts ++ [s])
           end ;;
  (* Post-release *)
  parts <- match post v with
           | PNone => Return parts
           | p => n <- item1 p ;;
                  Return (parts ++ [(".post" ++ py_str n)%string])
           end ;;
  (* Development release *)
  parts <- match dev v with
           | PNone => Return parts
           | p => n <- item1 p ;;
                  Return (parts ++ [(".dev" ++ py_str n)%string])
           end ;;
  (* Local version segment *)
  let parts :=
    match local v with
    | None => parts
    | Some items =>
        parts ++ [("+" ++ join "." (map py_str items))%string]
    end in
  Return (join "" parts).

Definition public (self : t) : exc string :=
  s <- __str__ self ;; Return (fst (str_split1 "+" s)).

Definition base_version (self : t) : string :=
  let v := _version self in
  let parts :=
    if negb (Z.eqb (epoch v) 0) then [(str_of_int (epoch v) ++ "!")%string]
    else [] in
  let parts := parts ++ [join "." (map str_of_int (release v))] in
  join "" parts.

Definition local (self : t) : exc (option string) :=
  version_string <- __str__ self ;;
  if contains_char "+" version_string
  then Return (snd (str_split1 "+" version_string))
  else Return None.

Definition is_prerelease (self : t) : bool :=
  truthy (py_or (dev (_version self)) (pre (_version self))).

Definition is_postrelease (self : t) : bool :=
  truthy (post (_version self)).
End Version.

(* ================================================================= *)
(** ** [_BaseVersion]: the shared ordering, and [parse] *)

Inductive _BaseVersion : Type :=
| a_Version (v : Version.t)
| a_LegacyVersion (v : LegacyVersion.t).

(** [self._key] *)
Definition _key (self : _BaseVersion) : pyval :=
  match self with
  | a_Version v => Version._key v
  | a_LegacyVersion v => LegacyVersion._key v
  end.

(** The right operand of a comparison: a version, or some other
    object. *)
Inductive operand : Type :=
| version_obj (v : _BaseVersion)
| other_obj (v : pyval).

(** What a comparison method returns. *)
Inductive answer : Type :=
| NotImplemented
| Bool (b : bool).

Definition _compare (self : _BaseVersion) (other : operand)
           (method : pyval -> pyval -> exc bool) : exc answer :=
  match other with
  | other_obj _ => Return NotImplemented
  | version_obj o => b <- method (_key self) (_key o) ;; Return (Bool b)
  end.

Definition __lt__ self other := _compare self other (py_richcompare OpLt).
Definition __le__ self other := _compare self other (py_richcompare OpLe).
Definition __eq__ self other := _compare self other (py_richcompare OpEq).
Definition __ge__ self other := _compare self other (py_richcompare OpGe).
Definition __gt__ self other := _compare self other (py_richcompare OpGt).
Definition __ne__ self other := _compare self other (py_richcompare OpNe).

(** [parse(version)]: [Version(version)], or [LegacyVersion(version)]
    when that raises [InvalidVersion]; any other exception passes
    through. *)
Definition parse (version : string) : exc _BaseVersion :=
  match Version.__init__ version with
  | Return v => Return (a_Version v)
  | Raise InvalidVersion => Return (a_LegacyVersion (LegacyVersion.__init__ version))
  | Raise e => Raise e
  end.

(* ================================================================= *)
(** ** What a match means *)

(** [matches r w g g']: the text [w] is in the language of [r], and
    matching it turns the groups [g] into [g'].  The positions that [^]
    and [$] test are left out: the relation is used to learn what the
    groups of a successful match hold. *)
Inductive matches : regex -> string -> groups -> groups -> Prop :=
| M_Empty g : matches Empty EmptyString g g
| M_Char p c g : p c = true -> matches (Char p) (String c EmptyString) g g
| M_Cat r1 r2 w1 w2 g g1 g2 :
    matches r1 w1 g g1 -> matches r2 w2 g1 g2 ->
    matches (Cat r1 r2) (w1 ++ w2) g g2
| M_AltL r1 r2 w g g' : matches r1 w g g' -> matches (Alt r1 r2) w g g'
| M_AltR r1 r2 w g g' : matches r2 w g g' -> matches (Alt r1 r2) w g g'
| M_Star0 r g : matches (Star r) EmptyString g g
| M_StarS r w1 w2 g g1 g2 :
    matches r w1 g g1 -> matches (Star r) w2 g1 g2 ->
    matches (Star r) (w1 ++ w2) g g2
| M_Group name r w g g' :
    matches r w g g' -> matches (Group name r) w g (set_group name w g')
| M_Bol g : matches Bol EmptyString g g
| M_Eol g : matches Eol EmptyString g g.

(** What a successful run of a matcher [m] for [r] gives: a text of [r]
    at the front of the subject, and a continuation that succeeded on the
    rest. *)
Definition sound_for {A : Type} (r : regex)
    (m : string -> groups -> (string -> groups -> option A) -> option A)
  : Prop :=
  forall s g k x,
    m s g k = Some x ->
    exists w s' g',
      s = (w ++ s')%string /\ matches r w g g' /\ k s' g' = Some x.

(** [sets_group name r]: every match of [r] sets the group [name]. *)
Fixpoint sets_group (name : string) (r : regex) : bool :=
  match r with
  | Group n r0 => String.eqb name n || sets_group name r0
  | Cat r1 r2 => sets_group name r1 || sets_group name r2
  | Alt r1 r2 => sets_group name r1 && sets_group name r2
  | _ => false
  end.

(** The groups of [VERSION_PATTERN] that hold a number. *)
Definition number_groups : list string :=
  ["epoch"; "pre_n"; "post_n1"; "post_n2"; "dev_n"].

(** What the text of a group of [VERSION_PATTERN] looks like. *)
Definition group_ok (name text : string) : Prop :=
  (In name number_groups -> isdigit text = true) /\
  (name = "release" ->
   Forall (fun p => isdigit p = true) (str_split "." text)) /\
  (name = "pre_l" ->
   In (lower text) ["a"; "b"; "c"; "rc"; "alpha"; "beta"; "pre"; "preview"]) /\
  (name = "post_l" -> In (lower text) ["post"; "rev"; "r"]) /\
  (name = "dev_l" -> lower text = "dev").

Definition groups_ok (g : groups) : Prop :=
  forall name text, g name = Some text -> group_ok name text.

(** Every group inside [r] captures a text that is [group_ok]. *)
Fixpoint groups_sound (r : regex) : Prop :=
  match r with
  | Group name r0 =>
      (forall w g g', matches r0 w g g' -> group_ok name w) /\
      groups_sound r0
  | Cat r1 r2 | Alt r1 r2 => groups_sound r1 /\ groups_sound r2
  | Star r0 => groups_sound r0
  | _ => True
  end.

(** The letters of [VERSION_PATTERN], and what
    [normalize_letter_version] makes of them. *)
Definition pattern_letters : list string :=
  ["a"; "b"; "c"; "rc"; "alpha"; "beta"; "pre"; "preview";
   "post"; "rev"; "r"; "dev"].

Definition normalized_letters : list string :=
  ["a"; "b"; "rc"; "post"; "dev"].

(** The values [_parse_letter_version] returns for the groups of a
    match: the pair of an absent marker, or a pair of a normalized
    letter and a natural number. *)
Definition letter_version (v : pyval) : Prop :=
  v = PTuple [PNone; PInt 0] \/
  exists l n,
    v = PTuple [PStr l; PInt n] /\ In l normalized_letters /\ (0 <= n)%Z.

(** An item of the local segment of a built version: an integer or a
    string. *)
Definition local_item (v : pyval) : Prop :=
  (exists n, v = PInt n) \/ (exists s, v = PStr s).

(** The ranks [_cmpkey] gives: to a field that [letter_version] holds
    of, to a release, and to a local segment. *)
Definition marker_rank (v : pyval) : pyval :=
  PTuple [v; PSentinel NegativeInfinity].

Definition release_rank (release : list Z) : pyval :=
  PTuple (map PInt (rev (dropwhile (fun x => Z.eqb x 0) (rev release)))).

Definition local_part_rank (i : pyval) : pyval :=
  match i with
  | PInt _ => PTuple [i; PStr ""]
  | _ => PTuple [PSentinel NegativeInfinity; i]
  end.

Definition local_rank (local : option (list pyval)) : pyval :=
  match local with
  | None => PSentinel NegativeInfinity
  | Some items => PTuple (map local_part_rank items)
  end.

(** What holds of every [Version] that [Version.__init__] builds. *)
Record built (v : Version.t) : Prop := {
  built_epoch : (0 <= epoch (Version._version v))%Z;
  built_pre : letter_version (pre (Version._version v));
  built_post : letter_version (post (Version._version v));
  built_dev : letter_version (dev (Version._version v));
  built_local : forall items, local (Version._version v) = Some items ->
                              Forall local_item items;
  built_key :
    Version._key v =
    PTuple [PInt (epoch (Version._version v));
            release_rank (release (Version._version v));
            marker_rank (pre (Version._version v));
            marker_rank (post (Version._version v));
            marker_rank (dev (Version._version v));
            local_rank (local (Version._version v))]
}.

(** An ordering operator, as opposed to [==] and [!=]. *)
Definition ordering (op : cmpop) : Prop := op <> OpEq /\ op <> OpNe.


(** A release without its trailing zeros, read from the left. *)
Fixpoint strip_trailing_zeros (release : list Z) : list Z :=
  match release with
  | [] => []
  | x :: release' =>
      match strip_trailing_zeros release' with
      | [] => if Z.eqb x 0 then [] else [x]
      | kept => x :: kept
      end
  end.

(** The release of a key as the spec words it: trailing zeros are
    stripped, "keeping at least the leading element if all are
    zero-stripped to empty". *)
Definition spec_trimmed_release (release : list Z) : list Z :=
  match strip_trailing_zeros release with
  | [] => firstn 1 release
  | kept => kept
  end.

(** [str(v)] for either kind of version. *)
Definition str (v : _BaseVersion) : exc string :=
  match v with
  | a_Version v => Version.__str__ v
  | a_LegacyVersion v => Return (LegacyVersion.__str__ v)
  end.

(** The accessors, for either kind of version. *)
Definition public (v : _BaseVersion) : exc string :=
  match v with
  | a_Version v => Version.public v
  | a_LegacyVersion v => Return (LegacyVersion.public v)
  end.

Definition base_version (v : _BaseVersion) : string :=
  match v with
  | a_Version v => Version.base_version v
  | a_LegacyVersion v => LegacyVersion.base_version v
  end.

Definition local_of (v : _BaseVersion) : exc (option string) :=
  match v with
  | a_Version v => Version.local v
  | a_LegacyVersion v => Return (LegacyVersion.local v)
  end.

(** [method(parse(a), parse(b))] for a comparison method. *)
Definition compare_parsed
           (method : _BaseVersion -> operand -> exc answer)
           (a b : string) : exc answer :=
  x <- parse a ;; y <- parse b ;; method x (version_obj y).

(** [parse(str(parse(s)))] *)
Definition reparse (s : string) : exc _BaseVersion :=
  v <- parse s ;; t <- str v ;; parse t.

(* ================================================================= *)
(** ** Further vocabulary for the properties *)

(** The three-way comparison behind [<], [<=], [>] and [>=]: [None]
    where Python has no order for the two values. *)
Fixpoint three_way (a b : pyval) {struct a} : option comparison :=
  match a, b with
  | PSentinel s, _ => Some (sentinel_compare s b)
  | _, PSentinel t => Some (CompOpp (sentinel_compare t a))
  | PInt x, PInt y => Some (Z.compare x y)
  | PStr x, PStr y => Some (String.compare x y)
  | PTuple xs, PTuple ys =>
      (fix items_way (xs ys : list pyval) {struct xs} : option comparison :=
         match xs, ys with
         | x :: xs', y :: ys' =>
             if py_eq x y then items_way xs' ys' else three_way x y
         | _, _ => Some (Nat.compare (List.length xs) (List.length ys))
         end) xs ys
  | _, _ => None
  end.

(** What an ordering operator answers, given the three-way result. *)
Definition answer_of (op : cmpop) (c : option comparison) : exc bool :=
  match c with
  | Some c => Return (holds op c)
  | None => Raise TypeError
  end.

(** Lexicographic order of two sequences, a proper prefix first. *)
Fixpoint lex_compare {A : Type} (cmp : A -> A -> comparison)
         (xs ys : list A) : comparison :=
  match xs, ys with
  | [], [] => Eq
  | [], _ :: _ => Lt
  | _ :: _, [] => Gt
  | x :: xs', y :: ys' =>
      match cmp x y with
      | Eq => lex_compare cmp xs' ys'
      | c => c
      end
  end.

(** The pair of an absent marker. *)
Definition absent : pyval := PTuple [PNone; PInt 0].

(** Two versions with the same markers present. *)
Definition same_shape (a b : Version.t) : Prop :=
  (pre (Version._version a) = absent <-> pre (Version._version b) = absent) /\
  (post (Version._version a) = absent <->
   post (Version._version b) = absent) /\
  (dev (Version._version a) = absent <-> dev (Version._version b) = absent).

(** The parts of a legacy key. *)
Definition legacy_parts (version : string) : list string :=
  fold_left
    (fun parts part =>
       if String.prefix "*" part then extract_parts parts part
       else extract_parts parts part)
    (_parse_version_parts (lower version)) [].

(** [c] occurs in [s]. *)
Definition has_char (p : ascii -> bool) (s : string) : bool :=
  negb (all_chars (fun c => negb (p c)) s).




(* ================================================================= *)
(** ** Lemmas on texts *)

Lemma append_empty_r (s : string) : (s ++ "")%string = s.
Proof. induction s as [|c s IH]; simpl; [reflexivity | now rewrite IH]. Qed.

Lemma append_assoc (a b c : string) :
  ((a ++ b) ++ c)%string = (a ++ (b ++ c))%string.
Proof. induction a as [|x a IH]; simpl; [reflexivity | now rewrite IH]. Qed.

Lemma length_append (a b : string) :
  String.length (a ++ b) = String.length a + String.length b.
Proof. induction a as [|x a IH]; simpl; [reflexivity | now rewrite IH]. Qed.

Lemma substring_append (w s : string) :
  substring 0 (String.length w) (w ++ s) = w.
Proof.
  induction w as [|c w IH]; simpl.
  - destruct s; reflexivity.
  - now rewrite IH.
Qed.

Lemma consumed_append (w s : string) : consumed (w ++ s) s = w.
Proof.
  unfold consumed. rewrite length_append.
  replace (String.length w + String.length s - String.length s)
    with (String.length w) by lia.
  apply substring_append.
Qed.

(* ================================================================= *)
(** ** The matcher finds matches only *)

Section MatcherSound.
Context {A : Type}.
Variable subject_length : nat.

Lemma star_loop_sound (r : regex)
      (body : string -> groups -> (string -> groups -> option A)
              -> option A) :
  sound_for r body ->
  forall fuel, sound_for (Star r) (fun s g k => star_loop body k fuel s g).
Proof.
  intros Hbody fuel. induction fuel as [|fuel IH]; intros s g k x H.
  - simpl in H. exists EmptyString, s, g. repeat split; auto. constructor.
  - simpl in H.
    destruct (body s g _) as [y|] eqn:Hb.
    + injection H as ->.
      apply Hbody in Hb. destruct Hb as (w1 & s1 & g1 & -> & Hm1 & Hk).
      destruct (Nat.ltb _ _); [|discriminate].
      apply IH in Hk. destruct Hk as (w2 & s2 & g2 & -> & Hm2 & Hk).
      exists (w1 ++ w2)%string, s2, g2. repeat split; auto.
      * now rewrite append_assoc.
      * econstructor; eassumption.
    + exists EmptyString, s, g. repeat split; auto. constructor.
Qed.

Lemma re_match_sound (r : regex) :
  sound_for r (@re_match A subject_length r).
Proof.
  induction r as [|p|r1 IH1 r2 IH2|r1 IH1 r2 IH2|r IH|name r IH| |];
    intros s g k x H; [simpl in H .. | | simpl in H | simpl in H | simpl in H].
  - exists EmptyString, s, g. repeat split; auto. constructor.
  - destruct s as [|c s']; [discriminate|].
    destruct (p c) eqn:Hp; [|discriminate].
    exists (String c EmptyString), s', g. repeat split; auto.
    now constructor.
  - apply IH1 in H. destruct H as (w1 & s1 & g1 & -> & Hm1 & H).
    apply IH2 in H. destruct H as (w2 & s2 & g2 & -> & Hm2 & H).
    exists (w1 ++ w2)%string, s2, g2. repeat split; auto.
    + now rewrite append_assoc.
    + econstructor; eassumption.
  - destruct (re_match subject_length r1 s g k) as [y|] eqn:H1.
    + injection H as ->. apply IH1 in H1.
      destruct H1 as (w & s' & g' & -> & Hm & Hk).
      exists w, s', g'. repeat split; auto. now apply M_AltL.
    + apply IH2 in H. destruct H as (w & s' & g' & -> & Hm & Hk).
      exists w, s', g'. repeat split; auto. now apply M_AltR.
  - exact (star_loop_sound r _ IH _ s g k x H).
  - apply IH in H. destruct H as (w & s' & g' & -> & Hm & Hk).
    rewrite consumed_append in Hk.
    exists w, s', (set_group name w g'). repeat split; auto.
    now constructor.
  - destruct (Nat.eqb _ _); [|discriminate].
    exists EmptyString, s, g. repeat split; auto. constructor.
  - exists EmptyString, s, g. repeat split; [constructor|].
    destruct s as [|c [|d s']]; auto; [|discriminate].
    destruct (Nat.eqb _ _); [auto|discriminate].
Qed.
End MatcherSound.

Lemma search_from_sound r n before s m :
  search_from r n before s = Some m ->
  exists w, matches r w no_groups (m_groups m).
Proof.
  revert before. induction s as [|c s IH]; intros before H; simpl in H.
  - destruct (re_match n r "" no_groups _) as [[s' g']|] eqn:Hm;
      [|discriminate].
    injection H as <-. apply re_match_sound in Hm.
    destruct Hm as (w & s1 & g1 & _ & Hm & Hk). injection Hk as <- <-.
    now exists w.
  - destruct (re_match n r (String c s) no_groups _) as [[s' g']|] eqn:Hm.
    + injection H as <-. apply re_match_sound in Hm.
      destruct Hm as (w & s1 & g1 & _ & Hm & Hk). injection Hk as <- <-.
      now exists w.
    + eapply IH; eassumption.
Qed.

Lemma re_search_sound r s m :
  re_search r s = Some m -> exists w, matches r w no_groups (m_groups m).
Proof. apply search_from_sound. Qed.

(* ================================================================= *)
(** ** What the groups of a match hold *)

Lemma matches_groups_ok r w g g' :
  matches r w g g' -> groups_sound r -> groups_ok g -> groups_ok g'.
Proof.
  induction 1 as [g|p c g Hp|r1 r2 w1 w2 g g1 g2 _ IH1 _ IH2
                 |r1 r2 w g g' _ IH|r1 r2 w g g' _ IH|r g
                 |r w1 w2 g g1 g2 _ IH1 _ IH2|name r w g g' Hm IH|g|g];
    simpl; intros Hs Hg; auto.
  - destruct Hs. auto.
  - destruct Hs. auto.
  - destruct Hs. auto.
  - destruct Hs as [Hw Hs]. intros n t. unfold set_group.
    destruct (String.eqb_spec n name) as [->|_].
    + intros [= <-]. eapply Hw; eassumption.
    + apply IH; assumption.
Qed.

Lemma matches_sets name r w g g' :
  matches r w g g' ->
  sets_group name r = true \/ g name <> None -> g' name <> None.
Proof.
  induction 1 as [g|p c g Hp|r1 r2 w1 w2 g g1 g2 _ IH1 _ IH2
                 |r1 r2 w g g' _ IH|r1 r2 w g g' _ IH|r g
                 |r w1 w2 g g1 g2 _ IH1 _ IH2|name' r w g g' Hm IH|g|g];
    simpl; intros [Hs|Hg]; try discriminate; auto.
  - apply orb_true_iff in Hs. destruct Hs; auto.
  - apply andb_true_iff in Hs. destruct Hs; auto.
  - apply andb_true_iff in Hs. destruct Hs; auto.
  - unfold set_group. destruct (String.eqb name name') eqn:E; [discriminate|].
    simpl in Hs. auto.
  - unfold set_group. destruct (String.eqb name name'); [discriminate|auto].
Qed.

(** *** The languages of the pieces of [VERSION_PATTERN] *)

Lemma all_chars_append p (a b : string) :
  all_chars p (a ++ b) = all_chars p a && all_chars p b.
Proof.
  induction a as [|c a IH]; simpl; [reflexivity|].
  now rewrite IH, andb_assoc.
Qed.

Lemma matches_Char_inv p w g g' :
  matches (Char p) w g g' ->
  exists c, w = String c EmptyString /\ p c = true /\ g' = g.
Proof. inversion 1; subst. eauto. Qed.

Lemma matches_Cat_inv r1 r2 w g g' :
  matches (Cat r1 r2) w g g' ->
  exists w1 w2 g1,
    w = (w1 ++ w2)%string /\ matches r1 w1 g g1 /\ matches r2 w2 g1 g'.
Proof. inversion 1; subst. eauto 6. Qed.

Lemma matches_Alt_inv r1 r2 w g g' :
  matches (Alt r1 r2) w g g' -> matches r1 w g g' \/ matches r2 w g g'.
Proof. inversion 1; subst; auto. Qed.

Lemma matches_Group_inv name r w g g' :
  matches (Group name r) w g g' -> exists g1, matches r w g g1.
Proof. inversion 1; subst; eauto. Qed.

Lemma matches_star_chars p w g g' :
  matches (Star (Char p)) w g g' -> all_chars p w = true.
Proof.
  intros H. remember (Star (Char p)) as r eqn:Hr.
  induction H; try discriminate; auto.
  injection Hr as ->.
  apply matches_Char_inv in H. destruct H as (c & -> & Hc & _).
  simpl. rewrite Hc. auto.
Qed.

Lemma matches_digits w g g' : matches digits w g g' -> isdigit w = true.
Proof.
  intros H. apply matches_Cat_inv in H.
  destruct H as (w1 & w2 & g1 & -> & H1 & H2).
  apply matches_Char_inv in H1. destruct H1 as (c & -> & Hc & _).
  apply matches_star_chars in H2. simpl. now rewrite Hc, H2.
Qed.

Lemma matches_word_i word : forall w g g',
  matches (word_i word) w g g' -> lower w = lower word.
Proof.
  induction word as [|c word IH]; intros w g g' H; simpl in H.
  - inversion H. reflexivity.
  - apply matches_Cat_inv in H. destruct H as (w1 & w2 & g1 & -> & H1 & H2).
    apply matches_Char_inv in H1. destruct H1 as (x & -> & Hx & _).
    apply Ascii.eqb_eq in Hx. simpl. rewrite Hx.
    f_equal. eapply IH; eassumption.
Qed.

Lemma matches_words_i ws : forall w g g',
  ws <> [] -> matches (words_i ws) w g g' -> In (lower w) (map lower ws).
Proof.
  induction ws as [|w1 ws IH]; intros w g g' Hne H; [congruence|].
  destruct ws as [|w2 ws].
  - left. symmetry. eapply matches_word_i; eassumption.
  - change (words_i (w1 :: w2 :: ws))
      with (Alt (word_i w1) (words_i (w2 :: ws))) in H.
    apply matches_Alt_inv in H. destruct H as [H|H].
    + left. symmetry. eapply matches_word_i; eassumption.
    + right. eapply IH; [discriminate|eassumption].
Qed.

Lemma split_on_append p : forall a cur b,
  all_chars (fun c => negb (p c)) a = true ->
  split_on p cur (a ++ b) = split_on p (cur ++ a) b.
Proof.
  induction a as [|c a IH]; intros cur b H; simpl in *.
  - now rewrite append_empty_r.
  - apply andb_true_iff in H. destruct H as [Hc Ha].
    apply negb_true_iff in Hc. rewrite Hc, IH by assumption.
    now rewrite append_assoc.
Qed.

Lemma all_chars_impl (p q : ascii -> bool) s :
  (forall c, p c = true -> q c = true) ->
  all_chars p s = true -> all_chars q s = true.
Proof.
  intros Hpq. induction s as [|c s IH]; simpl; auto.
  intros H. apply andb_true_iff in H. destruct H as [Hc Hs].
  now rewrite (Hpq _ Hc), IH.
Qed.

Lemma digit_not_dot c : is_digit c = true -> negb (Ascii.eqb "." c) = true.
Proof.
  intros H. destruct (Ascii.eqb_spec "."%char c) as [<-|]; [|reflexivity].
  discriminate H.
Qed.

Lemma isdigit_all s : isdigit s = true -> all_chars is_digit s = true.
Proof. destruct s; [discriminate|auto]. Qed.

Lemma matches_release_tail w g g' :
  matches (Star (Cat (lit ".") digits)) w g g' ->
  forall cur, isdigit cur = true ->
  Forall (fun p => isdigit p = true) (split_on (Ascii.eqb ".") cur w).
Proof.
  intros H. remember (Star (Cat (lit ".") digits)) as r eqn:Hr.
  induction H as [| | | | | r0 g0 | r0 w1 w2 g0 g1 g2 H1 _ H2 IH2 | | |];
    try discriminate; intros cur Hcur.
  - simpl. auto.
  - injection Hr as ->.
    apply matches_Cat_inv in H1. destruct H1 as (a & d & g3 & -> & Ha & Hd).
    apply matches_Char_inv in Ha. destruct Ha as (c & -> & Hc & _).
    apply matches_digits in Hd. apply Ascii.eqb_eq in Hc. subst c. simpl.
    constructor; [assumption|].
    rewrite split_on_append.
    + apply IH2; auto.
    + apply isdigit_all in Hd.
      eapply all_chars_impl; [|eassumption]. apply digit_not_dot.
Qed.

Lemma matches_release w g g' :
  matches (Cat digits (Star (Cat (lit ".") digits))) w g g' ->
  Forall (fun p => isdigit p = true) (str_split "." w).
Proof.
  intros H. apply matches_Cat_inv in H.
  destruct H as (d & t & g1 & -> & Hd & Ht).
  apply matches_digits in Hd. unfold str_split.
  rewrite split_on_append.
  - eapply matches_release_tail; eassumption.
  - apply isdigit_all in Hd.
    eapply all_chars_impl; [|eassumption]. apply digit_not_dot.
Qed.

(** A clause of [group_ok] that speaks about another group. *)
Ltac other_group Hn :=
  solve [exfalso; simpl in Hn; intuition discriminate].

(** [group_ok] for a concrete group name: the clauses of the other
    groups go away, [tac] proves the clause of this one. *)
Ltac group_clauses tac :=
  unfold group_ok; repeat split; intros Hn; first [other_group Hn | tac].

Lemma version_regex_groups_sound : groups_sound Version._regex.
Proof.
  unfold Version._regex, VERSION_PATTERN, epoch_re, release_re, pre_re,
    post_re, dev_re, local_re.
  cbn [groups_sound seq Opt].
  repeat match goal with |- _ /\ _ => split end;
    try exact I; try (simpl; tauto); intros w g g' H.
  all: group_clauses
         ltac:(first
                 [ eapply matches_digits; eassumption
                 | eapply matches_release; eassumption
                 | apply matches_Group_inv in H; destruct H as [g1 H];
                   apply matches_words_i in H; [exact H | discriminate]
                 | apply matches_words_i in H; [exact H | discriminate]
                 | eapply matches_word_i in H; exact H ]).
Qed.

Lemma no_groups_ok : groups_ok no_groups.
Proof. intros name text H. discriminate. Qed.

(** The groups of a successful search with [Version._regex]. *)
Lemma version_search_groups s m :
  re_search Version._regex s = Some m ->
  groups_ok (m_groups m) /\ m_groups m "release" <> None.
Proof.
  intros H. apply re_search_sound in H. destruct H as [w H]. split.
  - eapply matches_groups_ok;
      [eassumption | apply version_regex_groups_sound | apply no_groups_ok].
  - eapply matches_sets; [eassumption|]. left. reflexivity.
Qed.

(* ================================================================= *)
(** ** [int] of a digit string *)

Lemma in_range_spec lo hi c :
  in_range lo hi c = true <-> lo <= code c <= hi.
Proof.
  unfold in_range. rewrite andb_true_iff, !Nat.leb_le. tauto.
Qed.

Lemma digit_not_blank c : is_digit c = true -> is_blank c = false.
Proof.
  unfold is_digit, is_blank. intros H. apply in_range_spec in H.
  apply orb_false_iff. split.
  - apply not_true_iff_false. rewrite in_range_spec. lia.
  - apply Nat.eqb_neq. lia.
Qed.

Lemma digit_not_sign c :
  is_digit c = true -> Ascii.eqb c "-" = false /\ Ascii.eqb c "+" = false.
Proof.
  intros H. split.
  - destruct (Ascii.eqb_spec c "-"%char) as [->|]; [discriminate H|auto].
  - destruct (Ascii.eqb_spec c "+"%char) as [->|]; [discriminate H|auto].
Qed.

Lemma lstrip_digits c s :
  is_digit c = true -> lstrip (String c s) = String c s.
Proof. intros H. simpl. now rewrite (digit_not_blank _ H). Qed.

Lemma rstrip_digits s : all_chars is_digit s = true -> rstrip s = s.
Proof.
  induction s as [|c s IH]; simpl; [reflexivity|].
  intros H. apply andb_true_iff in H. destruct H as [Hc Hs].
  rewrite (IH Hs). destruct s; [|reflexivity].
  now rewrite (digit_not_blank _ Hc).
Qed.

Lemma digit_value_nonneg c : (0 <= digit_value c)%Z.
Proof. unfold digit_value. lia. Qed.

Lemma digits_value_digits s : forall acc b,
  all_chars is_digit s = true -> (0 <= acc)%Z ->
  s <> EmptyString \/ b = true ->
  exists v, digits_value acc b s = Some v /\ (0 <= v)%Z.
Proof.
  induction s as [|c s IH]; intros acc b Hs Hacc Hb;
    cbn [digits_value all_chars] in *.
  - destruct Hb as [Hb| ->]; [congruence|]. eauto.
  - apply andb_true_iff in Hs. destruct Hs as [Hc Hs]. rewrite Hc.
    apply IH; auto. pose proof (digit_value_nonneg c). lia.
Qed.

Lemma int_of_str_digits s :
  isdigit s = true -> exists n, int_of_str s = Return n /\ (0 <= n)%Z.
Proof.
  intros H. destruct s as [|c s]; [discriminate|].
  pose proof (isdigit_all _ H) as Hall.
  assert (Hc : is_digit c = true)
    by (simpl in Hall; now apply andb_true_iff in Hall).
  unfold int_of_str.
  rewrite (lstrip_digits _ _ Hc), (rstrip_digits _ Hall).
  destruct (digit_not_sign _ Hc) as [-> ->].
  destruct (digits_value_digits (String c s) 0 false Hall) as (v & -> & Hv);
    [lia | left; discriminate |].
  eauto.
Qed.

Lemma mapM_int_of_str l :
  Forall (fun p => isdigit p = true) l ->
  exists ns, mapM int_of_str l = Return ns /\ Forall (fun n => (0 <= n)%Z) ns.
Proof.
  induction 1 as [|p l Hp _ (ns & IH & Hns)]; simpl.
  - eauto.
  - destruct (int_of_str_digits _ Hp) as (n & -> & Hn). simpl.
    rewrite IH. simpl. eauto.
Qed.

(* ================================================================= *)
(** ** Every match builds a version *)

Lemma normalize_pattern_letter l :
  In (lower l) pattern_letters ->
  In (normalize_letter_version l) normalized_letters.
Proof.
  unfold normalize_letter_version. intros H.
  repeat (destruct H as [<-|H]; [vm_compute; tauto|]).
  destruct H.
Qed.

Lemma _parse_letter_version_built letter number :
  (forall l, letter = Some l -> In (lower l) pattern_letters) ->
  (forall s, number = Some s -> isdigit s = true) ->
  exists v, _parse_letter_version letter number = Return v /\
            letter_version v.
Proof.
  intros Hl Hn. unfold _parse_letter_version.
  assert (Hpost : In "post" normalized_letters) by (simpl; tauto).
  destruct number as [s|].
  - destruct (int_of_str_digits s (Hn s eq_refl)) as (n & Hs & Hn0).
    destruct letter as [l|]; simpl.
    + assert (Hnl := normalize_pattern_letter l (Hl l eq_refl)).
      destruct (negb (String.eqb l "")); [|destruct (negb (String.eqb s ""))];
        rewrite ?Hs; simpl; eexists; (split; [reflexivity|]);
        solve [now left | right; eauto].
    + destruct (negb (String.eqb s ""));
        rewrite ?Hs; simpl; eexists; (split; [reflexivity|]);
        solve [now left | right; eauto].
  - destruct letter as [l|]; simpl.
    + assert (Hnl := normalize_pattern_letter l (Hl l eq_refl)).
      destruct (negb (String.eqb l "")); simpl;
        eexists; (split; [reflexivity|]); [right|now left].
      exists (normalize_letter_version l), 0%Z. repeat split; auto. lia.
    + eexists; split; [reflexivity|now left].
Qed.

Lemma mapM_local_parts parts :
  exists items,
    mapM (fun part =>
            if negb (isdigit part) then Return (PStr (lower part))
            else n <- int_of_str part ;; Return (PInt n)) parts
    = Return items /\ Forall local_item items.
Proof.
  induction parts as [|p parts (items & IH & Hitems)]; simpl.
  - eauto.
  - destruct (isdigit p) eqn:Hp; simpl.
    + destruct (int_of_str_digits _ Hp) as (n & -> & _). simpl.
      rewrite IH. simpl. eexists; split; [reflexivity|].
      constructor; auto. left; eauto.
    + rewrite IH. simpl. eexists; split; [reflexivity|].
      constructor; auto. right; eauto.
Qed.

Lemma _parse_local_version_built o :
  exists r, _parse_local_version o = Return r /\
            forall items, r = Some items -> Forall local_item items.
Proof.
  destruct o as [l|]; simpl.
  - destruct (mapM_local_parts (re_split0 _local_version_seperators l))
      as (items & -> & H). simpl.
    eexists; split; [reflexivity|]. now intros ? [= <-].
  - eexists; split; [reflexivity|]. discriminate.
Qed.

Lemma marker_key_letter v :
  letter_version v -> marker_key v = Return (marker_rank v).
Proof.
  intros [->|(l & n & -> & Hl & _)]; [reflexivity|].
  unfold normalized_letters in Hl.
  repeat (destruct Hl as [<-|Hl]; [reflexivity|]). destruct Hl.
Qed.

Lemma _cmpkey_built e r p po d l :
  letter_version p -> letter_version po -> letter_version d ->
  _cmpkey e r p po d l =
  Return (PTuple [PInt e; release_rank r; marker_rank p; marker_rank po;
                  marker_rank d; local_rank l]).
Proof.
  intros Hp Hpo Hd. unfold _cmpkey.
  assert (Hp' := marker_key_letter _ Hp).
  assert (Hpo' := marker_key_letter _ Hpo).
  assert (Hd' := marker_key_letter _ Hd).
  assert (Tp : exists a b, p = PTuple [a; b])
    by (destruct Hp as [->|(? & ? & -> & _)]; eauto).
  assert (Tpo : exists a b, po = PTuple [a; b])
    by (destruct Hpo as [->|(? & ? & -> & _)]; eauto).
  assert (Td : exists a b, d = PTuple [a; b])
    by (destruct Hd as [->|(? & ? & -> & _)]; eauto).
  destruct Tp as (? & ? & ->), Tpo as (? & ? & ->), Td as (? & ? & ->).
  cbn [py_eq orb]. rewrite Hp', Hpo', Hd'. cbn [bind].
  destruct l; reflexivity.
Qed.

Lemma pre_letters_in_pattern l :
  In l ["a"; "b"; "c"; "rc"; "alpha"; "beta"; "pre"; "preview"] ->
  In l pattern_letters.
Proof. unfold pattern_letters. simpl. tauto. Qed.

Lemma post_letters_in_pattern l :
  In l ["post"; "rev"; "r"] -> In l pattern_letters.
Proof. unfold pattern_letters. simpl. tauto. Qed.

(** [Version.__init__] raises [InvalidVersion] or builds a version, and
    nothing else. *)
Lemma Version_init_spec s :
  match Version.__init__ s with
  | Return v => built v
  | Raise e => e = InvalidVersion
  end.
Proof.
  unfold Version.__init__.
  destruct (re_search Version._regex s) as [m|] eqn:Hs; [|reflexivity].
  destruct (version_search_groups _ _ Hs) as [Hok Hrel]. cbv zeta.
  (* epoch *)
  assert (He : exists e,
             (if str_truthy (m_groups m "epoch")
              then match m_groups m "epoch" with
                   | Some e => int_of_str e
                   | None => Raise TypeError
                   end
              else Return 0%Z) = Return e /\ (0 <= e)%Z).
  { destruct (m_groups m "epoch") as [e|] eqn:E; simpl.
    - destruct (negb (String.eqb e "")); [|exists 0%Z; split; auto; lia].
      apply int_of_str_digits. apply (Hok _ _ E). simpl. tauto.
    - exists 0%Z; split; auto; lia. }
  destruct He as (e & -> & He). cbn [bind].
  (* release *)
  destruct (m_groups m "release") as [r|] eqn:R; [|congruence].
  destruct (mapM_int_of_str (str_split "." r)) as (ns & -> & _);
    [apply (Hok _ _ R); reflexivity|]. cbn [bind].
  (* pre, post, dev *)
  destruct (_parse_letter_version_built (m_groups m "pre_l")
                                        (m_groups m "pre_n"))
    as (p & -> & Hp).
  { intros l E. apply pre_letters_in_pattern. now apply (Hok _ _ E). }
  { intros n E. apply (Hok _ _ E). simpl. tauto. }
  cbn [bind].
  destruct (_parse_letter_version_built
              (m_groups m "post_l")
              (if str_truthy (m_groups m "post_n1")
               then m_groups m "post_n1" else m_groups m "post_n2"))
    as (po & -> & Hpo).
  { intros l E. apply post_letters_in_pattern. now apply (Hok _ _ E). }
  { intros n E. destruct (str_truthy (m_groups m "post_n1"));
      apply (Hok _ _ E); simpl; tauto. }
  cbn [bind].
  destruct (_parse_letter_version_built (m_groups m "dev_l")
                                        (m_groups m "dev_n"))
    as (d & -> & Hd).
  { intros l E. destruct (Hok _ _ E) as (_ & _ & _ & _ & H).
    rewrite (H eq_refl). unfold pattern_letters. simpl. tauto. }
  { intros n E. apply (Hok _ _ E). simpl. tauto. }
  cbn [bind].
  (* local *)
  destruct (_parse_local_version_built (m_groups m "local"))
    as (lo & -> & Hlo).
  cbn [bind epoch release pre post dev local].
  rewrite (_cmpkey_built e ns p po d lo Hp Hpo Hd).
  cbn [bind]. constructor; simpl; auto.
Qed.

Lemma Version_init_built s v : Version.__init__ s = Return v -> built v.
Proof. intros H. pose proof (Version_init_spec s) as S. now rewrite H in S. Qed.

(* ================================================================= *)
(** ** Comparison of tuples *)

(** Induction on a value, with the items of a tuple covered. *)
Lemma pyval_induction (P : pyval -> Prop) :
  P PNone ->
  (forall z, P (PInt z)) ->
  (forall s, P (PStr s)) ->
  (forall items, Forall P items -> P (PTuple items)) ->
  (forall s, P (PSentinel s)) ->
  forall v, P v.
Proof.
  intros HN HI HS HT HX. fix IH 1.
  intros [ |z|s|items|s]; [exact HN | apply HI | apply HS | | apply HX].
  apply HT. induction items as [|x items IHitems]; constructor;
    [apply IH | exact IHitems].
Qed.

Lemma py_eq_refl v : py_eq v v = true.
Proof.
  induction v as [ |z|s|items IH|s] using pyval_induction; simpl.
  - reflexivity.
  - apply Z.eqb_refl.
  - apply String.eqb_refl.
  - induction IH as [|x items Hx _ IHitems]; [reflexivity|].
    now rewrite Hx, IHitems.
  - destruct s; reflexivity.
Qed.

Lemma richcompare_common_prefix op pfx xs ys :
  ordering op ->
  py_richcompare op (PTuple (pfx ++ xs)) (PTuple (pfx ++ ys)) =
  py_richcompare op (PTuple xs) (PTuple ys).
Proof.
  intros [Heq Hne]. induction pfx as [|x pfx IH]; [reflexivity|].
  destruct op; try congruence;
    simpl in *; rewrite py_eq_refl; exact IH.
Qed.

Lemma richcompare_first_differs op x y xs ys :
  ordering op -> py_eq x y = false ->
  py_richcompare op (PTuple (x :: xs)) (PTuple (y :: ys)) =
  py_richcompare op x y.
Proof.
  intros [Heq Hne] H. destruct op; try congruence; simpl; now rewrite H.
Qed.


(* ================================================================= *)
(** ** Release trimming *)

Lemma strip_app_zero r :
  strip_trailing_zeros (r ++ [0%Z]) = strip_trailing_zeros r.
Proof.
  induction r as [|a r IH]; simpl; [reflexivity|]. now rewrite IH.
Qed.

Lemma strip_app_nonzero r x :
  Z.eqb x 0 = false -> strip_trailing_zeros (r ++ [x]) = r ++ [x].
Proof.
  intros Hx. induction r as [|a r IH]; simpl.
  - now rewrite Hx.
  - rewrite IH. destruct (r ++ [x]) eqn:E; [|reflexivity].
    now apply app_eq_nil in E.
Qed.

Lemma strip_app_zeros n : forall r,
  strip_trailing_zeros (r ++ repeat 0%Z n) = strip_trailing_zeros r.
Proof.
  induction n as [|n IH]; intros r; simpl.
  - now rewrite app_nil_r.
  - change (r ++ 0%Z :: repeat 0%Z n) with (r ++ [0%Z] ++ repeat 0%Z n).
    now rewrite app_assoc, IH, strip_app_zero.
Qed.

(** The double reversal of [_cmpkey] strips the trailing zeros. *)
Lemma reversed_release_strips r :
  rev (dropwhile (fun x => Z.eqb x 0) (rev r)) = strip_trailing_zeros r.
Proof.
  induction r as [|x r IH] using rev_ind; [reflexivity|].
  rewrite rev_app_distr. simpl.
  destruct (Z.eqb x 0) eqn:Hx.
  - apply Z.eqb_eq in Hx. subst x. now rewrite strip_app_zero.
  - simpl. rewrite rev_involutive. now rewrite strip_app_nonzero.
Qed.

Lemma bind_Return {A B : Type} (c : exc A) (k : A -> exc B) b :
  bind c k = Return b -> exists a, c = Return a /\ k a = Return b.
Proof. destruct c as [a|e]; simpl; [eauto|discriminate]. Qed.

(* ================================================================= *)
(** ** The claims *)

Ltac by_evaluation :=
  repeat match goal with |- _ /\ _ => split end; vm_compute; reflexivity.

Lemma parse_Version s v :
  parse s = Return (a_Version v) <-> Version.__init__ s = Return v.
Proof.
  unfold parse. split.
  - destruct (Version.__init__ s) as [w|[]]; congruence.
  - now intros ->.
Qed.

(** Where the ordering breaks: two built versions with the same epoch
    and release, of which one has no pre-release marker and the other
    has one, cannot be ordered; each of [<], [<=], [>], [>=] raises
    [TypeError], because the keys hold [(None, 0)] against a pair that
    starts with a letter. *)
Lemma absent_marker_not_ordered op (sa sb : string) (a b : Version.t) l n :
  ordering op ->
  Version.__init__ sa = Return a ->
  Version.__init__ sb = Return b ->
  epoch (Version._version a) = epoch (Version._version b) ->
  release (Version._version a) = release (Version._version b) ->
  pre (Version._version a) = PTuple [PNone; PInt 0] ->
  pre (Version._version b) = PTuple [PStr l; PInt n] ->
  _compare (a_Version a) (version_obj (a_Version b)) (py_richcompare op)
  = Raise TypeError /\
  _compare (a_Version b) (version_obj (a_Version a)) (py_richcompare op)
  = Raise TypeError.
Proof.
  intros Hop Ha Hb E1 E2 Pa Pb.
  destruct (Version_init_built _ _ Ha) as [_ _ _ _ _ Ka].
  destruct (Version_init_built _ _ Hb) as [_ _ _ _ _ Kb].
  unfold _compare. cbn [_key]. rewrite Ka, Kb, E1, E2, Pa, Pb.
  set (e := PInt (epoch (Version._version b))).
  set (r := release_rank (release (Version._version b))).
  split.
  - change (PTuple (e :: r :: ?x)) with (PTuple ([e; r] ++ x)).
    rewrite richcompare_common_prefix by assumption.
    rewrite richcompare_first_differs by (assumption || reflexivity).
    unfold marker_rank.
    rewrite richcompare_first_differs by (assumption || reflexivity).
    rewrite richcompare_first_differs by (assumption || reflexivity).
    destruct Hop as [Heq Hne]. destruct op; try congruence; reflexivity.
  - change (PTuple (e :: r :: ?x)) with (PTuple ([e; r] ++ x)).
    rewrite richcompare_common_prefix by assumption.
    rewrite richcompare_first_differs by (assumption || reflexivity).
    unfold marker_rank.
    rewrite richcompare_first_differs by (assumption || reflexivity).
    rewrite richcompare_first_differs by (assumption || reflexivity).
    destruct Hop as [Heq Hne]. destruct op; try congruence; reflexivity.
Qed.

(** C1 (does not hold of the code).  For [a = parse("1.0rc1")] and
    [b = parse("1.0")] none of [a < b], [a == b], [a > b] holds: the
    two orderings raise [TypeError] and the equality is false. *)
Theorem total_order_fails :
  compare_parsed __lt__ "1.0rc1" "1.0" = Raise TypeError /\
  compare_parsed __eq__ "1.0rc1" "1.0" = Return (Bool false) /\
  compare_parsed __gt__ "1.0rc1" "1.0" = Raise TypeError.
Proof. by_evaluation. Qed.

(** C2 (does not hold of the code).  [str(parse("1.0"))] is
    ["1.0None0.post0.dev0"], which parses to a legacy version, whose key
    is not equal to the key of [parse("1.0")]. *)
Theorem round_trip_fails :
  (v <- parse "1.0" ;; str v) = Return "1.0None0.post0.dev0" /\
  reparse "1.0" =
    Return (a_LegacyVersion (LegacyVersion.__init__ "1.0None0.post0.dev0")) /\
  (v <- parse "1.0" ;; w <- reparse "1.0" ;; __eq__ v (version_obj w))
    = Return (Bool false).
Proof. by_evaluation. Qed.

(** C3 (does not hold of the code).  The pre-releases are ordered among
    themselves, [1.0a1 < 1.0a2 < 1.0b1 < 1.0rc1], but comparing the last
    pre-release with the final release [1.0] raises [TypeError]. *)
Theorem prerelease_ordering_fails :
  compare_parsed __lt__ "1.0a1" "1.0a2" = Return (Bool true) /\
  compare_parsed __lt__ "1.0a2" "1.0b1" = Return (Bool true) /\
  compare_parsed __lt__ "1.0b1" "1.0rc1" = Return (Bool true) /\
  compare_parsed __lt__ "1.0rc1" "1.0" = Raise TypeError.
Proof. by_evaluation. Qed.

(** C4 (does not hold of the code).  Each of the three comparisons of
    [1.0.dev1 < 1.0a1 < 1.0 < 1.0.post1] raises [TypeError]. *)
Theorem dev_post_ordering_fails :
  compare_parsed __lt__ "1.0.dev1" "1.0a1" = Raise TypeError /\
  compare_parsed __lt__ "1.0a1" "1.0" = Raise TypeError /\
  compare_parsed __lt__ "1.0" "1.0.post1" = Raise TypeError.
Proof. by_evaluation. Qed.


Lemma ordering_lt : ordering OpLt.
Proof. split; discriminate. Qed.

Lemma ordering_gt : ordering OpGt.
Proof. split; discriminate. Qed.



(** C7 (as the spec words it, false): the key of ["0.0"] has the empty
    release, where "keeping at least the leading element" asks for
    the one zero. *)
Lemma release_keeps_leading_counterexample :
  exists v rest,
    parse "0.0" = Return (a_Version v) /\
    Version._key v = PTuple (PInt 0 :: PTuple [] :: rest) /\
    spec_trimmed_release (release (Version._version v)) = [0%Z].
Proof. do 2 eexists. by_evaluation. Qed.

(** C7, amended.  The key holds the release without any of its trailing
    zeros (an all-zero release becomes the empty tuple), so zeros
    appended to a release do not change the key; and
    [parse("1.0") == parse("1.0.0") == parse("1.0.0.0")]. *)
Theorem release_trimming (e : Z) (r : list Z) (p po d : pyval)
        (l : option (list pyval)) (k : pyval) :
  _cmpkey e r p po d l = Return k ->
  (exists rest,
      k = PTuple (PInt e :: PTuple (map PInt (strip_trailing_zeros r))
                  :: rest)) /\
  (forall n, _cmpkey e (r ++ repeat 0%Z n) p po d l = Return k) /\
  compare_parsed __eq__ "1.0" "1.0.0" = Return (Bool true) /\
  compare_parsed __eq__ "1.0.0" "1.0.0.0" = Return (Bool true).
Proof.
  intros H. split; [|split; [|by_evaluation]].
  - unfold _cmpkey in H. rewrite reversed_release_strips in H.
    apply bind_Return in H. destruct H as (p' & _ & H).
    apply bind_Return in H. destruct H as (po' & _ & H).
    apply bind_Return in H. destruct H as (d' & _ & H).
    injection H as <-. eauto.
  - intros n. rewrite <- H. unfold _cmpkey.
    now rewrite !reversed_release_strips, strip_app_zeros.
Qed.

Lemma release_trimming_witness :
  exists k,
    _cmpkey 0 [1; 2; 0; 0]%Z PNone PNone PNone None = Return k /\
    _cmpkey 0 ([1; 2; 0; 0] ++ repeat 0 3)%Z PNone PNone PNone None
    = Return k.
Proof.
  eexists. split; [vm_compute; reflexivity|].
  apply (release_trimming 0 [1; 2; 0; 0]%Z PNone PNone PNone None).
  vm_compute; reflexivity.
Defined.






(** C9 (does not hold of the code).  [parse("1.0+local.1").public] is
    ["1.0None0.post0.dev0"], not ["1.0"]; the two other accessors
    answer as claimed: [.local] is ["local.1"], and
    [parse("1.0").base_version] is ["1.0"]. *)
Theorem public_accessor_fails :
  (v <- parse "1.0+local.1" ;; public v) = Return "1.0None0.post0.dev0" /\
  (v <- parse "1.0+local.1" ;; local_of v) = Return (Some "local.1") /\
  (v <- parse "1.0" ;; Return (base_version v)) = Return "1.0".
Proof. by_evaluation. Qed.

(** C10.  For every text that the structured grammar accepts,
    [is_prerelease] and [is_postrelease] are both true, because
    [_parse_letter_version] returns the non-empty tuple [(None, 0)] for
    an absent marker. *)
Theorem release_flags_always_true (s : string) (v : Version.t) :
  parse s = Return (a_Version v) ->
  Version.is_prerelease v = true /\
  Version.is_postrelease v = true /\
  _parse_letter_version None None = Return (PTuple [PNone; PInt 0]) /\
  truthy (PTuple [PNone; PInt 0]) = true.
Proof.
  intros H. apply parse_Version in H.
  destruct (Version_init_built _ _ H) as [_ _ Hpost Hdev _ _].
  unfold Version.is_prerelease, Version.is_postrelease, py_or.
  repeat split.
  - destruct Hdev as [->|(l & n & -> & _)]; reflexivity.
  - destruct Hpost as [->|(l & n & -> & _)]; reflexivity.
Qed.

Lemma release_flags_always_true_witness :
  exists v,
    parse "1.0" = Return (a_Version v) /\
    Version.is_prerelease v = true /\ Version.is_postrelease v = true.
Proof.
  eexists. split; [vm_compute; reflexivity|].
  split; apply (release_flags_always_true "1.0"); vm_compute; reflexivity.
Defined.

(* ================================================================= *)
(** ** The ordering operators as a three-way comparison *)

Lemma richcompare_three_way op a : forall b,
  ordering op -> py_richcompare op a b = answer_of op (three_way a b).
Proof.
  induction a as [ |z|s|items IH|s] using pyval_induction;
    intros b [Heq Hne]; destruct op; try congruence;
    destruct b as [ |z'|s'|items'|s']; try reflexivity.
  all: cbn [py_richcompare three_way].
  all: revert items'; induction IH as [|x items Hx _ IHitems];
    intros [|y items']; try reflexivity.
  all: destruct (py_eq x y);
    [apply IHitems | apply Hx; split; discriminate].
Qed.

Lemma py_eq_eq a : forall b, py_eq a b = true <-> a = b.
Proof.
  induction a as [ |z|s|items IH|s] using pyval_induction;
    intros [ |z'|s'|items'|s']; simpl;
    try (split; [discriminate|congruence]); try tauto.
  - rewrite Z.eqb_eq. split; congruence.
  - rewrite String.eqb_eq. split; congruence.
  - revert items'. induction IH as [|x items Hx _ IHitems];
      intros [|y items']; try (split; [discriminate|congruence]);
      [tauto|].
    rewrite andb_true_iff, Hx. split.
    + intros [-> H]. apply IHitems in H. congruence.
    + intros [= -> ->]. split; [reflexivity|]. now apply IHitems.
  - destruct s, s'; simpl; split; congruence.
Qed.

Lemma py_eq_sym a b : py_eq a b = py_eq b a.
Proof.
  destruct (py_eq a b) eqn:E.
  - apply py_eq_eq in E. subst. symmetry. apply py_eq_refl.
  - destruct (py_eq b a) eqn:E'; [|reflexivity].
    apply py_eq_eq in E'. subst. now rewrite py_eq_refl in E.
Qed.

Lemma sentinel_compare_antisym s t :
  sentinel_compare t (PSentinel s) = CompOpp (sentinel_compare s (PSentinel t)).
Proof. destruct s, t; reflexivity. Qed.

Lemma three_way_antisym a : forall b,
  three_way b a = option_map CompOpp (three_way a b).
Proof.
  induction a as [ |z|s|items IH|s] using pyval_induction;
    intros [ |z'|s'|items'|s']; simpl; try reflexivity;
    try (now rewrite CompOpp_involutive).
  - now rewrite Z.compare_antisym.
  - now rewrite String.compare_antisym.
  - revert items'. induction IH as [|x items Hx _ IHitems];
      intros [|y items']; try reflexivity.
    rewrite (py_eq_sym y x). destruct (py_eq x y); [apply IHitems|apply Hx].
  - now rewrite sentinel_compare_antisym.
Qed.

Lemma holds_converse c :
  holds OpGt c = holds OpLt (CompOpp c) /\
  holds OpGe c = holds OpLe (CompOpp c).
Proof. destruct c; split; reflexivity. Qed.

Lemma richcompare_converse a b :
  py_richcompare OpGt a b = py_richcompare OpLt b a /\
  py_richcompare OpGe a b = py_richcompare OpLe b a.
Proof.
  assert (Hge : ordering OpGe) by (split; discriminate).
  assert (Hle : ordering OpLe) by (split; discriminate).
  rewrite (richcompare_three_way OpGt a b ordering_gt),
          (richcompare_three_way OpLt b a ordering_lt),
          (richcompare_three_way OpGe a b Hge),
          (richcompare_three_way OpLe b a Hle),
          (three_way_antisym a b).
  destruct (three_way a b) as [c|]; cbn [answer_of option_map]; [|auto].
  destruct (holds_converse c) as [-> ->]. auto.
Qed.

Lemma three_way_Eq a : forall b, three_way a b = Some Eq -> py_eq a b = true.
Proof.
  induction a as [ |z|s|items IH|s] using pyval_induction;
    intros [ |z'|s'|items'|s']; simpl; try discriminate;
    try (destruct s; discriminate); try (destruct s'; discriminate).
  - intros [= H]. now apply Z.compare_eq_iff, Z.eqb_eq in H.
  - intros [= H]. now apply String.compare_eq_iff, String.eqb_eq in H.
  - revert items'. induction IH as [|x items Hx _ IHitems];
      intros [|y items']; try discriminate; [reflexivity|].
    destruct (py_eq x y) eqn:E; simpl.
    + apply IHitems.
    + intros H. apply Hx in H. rewrite E in H. discriminate H.
  - destruct s, s'; simpl; intros H; (reflexivity || discriminate H).
Qed.

Lemma three_way_same a c : three_way a a = Some c -> c = Eq.
Proof.
  intros H. pose proof (three_way_antisym a a) as A. rewrite H in A.
  destruct c; [reflexivity | discriminate A | discriminate A].
Qed.

Lemma richcompare_eq a b : py_richcompare OpEq a b = Return (py_eq a b).
Proof. destruct a; reflexivity. Qed.

Lemma richcompare_ne a b :
  py_richcompare OpNe a b = Return (negb (py_eq a b)).
Proof. destruct a; reflexivity. Qed.

(** Once the three-way comparison has an answer, each of the six
    operators returns what that answer says. *)
Lemma richcompare_by_three_way op a b c :
  three_way a b = Some c -> py_richcompare op a b = Return (holds op c).
Proof.
  intros H.
  assert (E : py_eq a b = holds OpEq c).
  { destruct (py_eq a b) eqn:E.
    - apply py_eq_eq in E. subst b. now rewrite (three_way_same _ _ H).
    - destruct c; try reflexivity. apply three_way_Eq in H. congruence. }
  destruct op;
    try (rewrite richcompare_three_way, H by (split; discriminate);
         reflexivity).
  - rewrite richcompare_eq, E. reflexivity.
  - rewrite richcompare_ne, E. now destruct c.
Qed.

Lemma three_way_common_prefix pfx xs ys :
  three_way (PTuple (pfx ++ xs)) (PTuple (pfx ++ ys)) =
  three_way (PTuple xs) (PTuple ys).
Proof.
  induction pfx as [|x pfx IH]; [reflexivity|].
  simpl in *. rewrite py_eq_refl. exact IH.
Qed.

Lemma three_way_first_differs x y xs ys :
  py_eq x y = false ->
  three_way (PTuple (x :: xs)) (PTuple (y :: ys)) = three_way x y.
Proof. intros H. simpl. now rewrite H. Qed.

Lemma three_way_first_same x xs ys :
  three_way (PTuple (x :: xs)) (PTuple (x :: ys)) =
  three_way (PTuple xs) (PTuple ys).
Proof. apply (three_way_common_prefix [x]). Qed.

Lemma three_way_tuple_refl xs : three_way (PTuple xs) (PTuple xs) = Some Eq.
Proof.
  induction xs as [|x xs IH]; [reflexivity|].
  now rewrite three_way_first_same.
Qed.

Lemma lex_compare_Eq_Z xs : forall ys,
  lex_compare Z.compare xs ys = Eq <-> xs = ys.
Proof.
  induction xs as [|x xs IH]; intros [|y ys]; simpl;
    try (split; [discriminate|congruence]); [tauto|].
  destruct (Z.compare_spec x y) as [->| |]; try (split; [discriminate|]).
  - rewrite IH. split; congruence.
  - intros [= -> _]. lia.
  - intros [= -> _]. lia.
Qed.

Lemma three_way_ints xs : forall ys,
  three_way (PTuple (map PInt xs)) (PTuple (map PInt ys)) =
  Some (lex_compare Z.compare xs ys).
Proof.
  induction xs as [|x xs IH]; intros [|y ys]; try reflexivity.
  cbn [map lex_compare].
  destruct (Z.compare_spec x y) as [->| |].
  - rewrite three_way_first_same. apply IH.
  - rewrite three_way_first_differs by (cbn [py_eq]; apply Z.eqb_neq; lia).
    cbn [three_way]. f_equal. now apply Z.compare_lt_iff.
  - rewrite three_way_first_differs by (cbn [py_eq]; apply Z.eqb_neq; lia).
    cbn [three_way]. f_equal. now apply Z.compare_gt_iff.
Qed.

Lemma release_rank_strips r :
  release_rank r = PTuple (map PInt (strip_trailing_zeros r)).
Proof. unfold release_rank. now rewrite reversed_release_strips. Qed.

Lemma built_key_strips v :
  built v ->
  Version._key v =
  PTuple [PInt (epoch (Version._version v));
          PTuple (map PInt (strip_trailing_zeros
                              (release (Version._version v))));
          marker_rank (pre (Version._version v));
          marker_rank (post (Version._version v));
          marker_rank (dev (Version._version v));
          local_rank (local (Version._version v))].
Proof. intros [_ _ _ _ _ K]. now rewrite K, release_rank_strips. Qed.

Lemma three_way_cons x y xs ys :
  (exists c, three_way x y = Some c) ->
  (exists c, three_way (PTuple xs) (PTuple ys) = Some c) ->
  exists c, three_way (PTuple (x :: xs)) (PTuple (y :: ys)) = Some c.
Proof.
  intros Hx Hxs. destruct (py_eq x y) eqn:E.
  - apply py_eq_eq in E. subst y. now rewrite three_way_first_same.
  - now rewrite three_way_first_differs.
Qed.

Lemma three_way_cons_eq x xs ys :
  (exists c, three_way (PTuple xs) (PTuple ys) = Some c) ->
  exists c, three_way (PTuple (x :: xs)) (PTuple (x :: ys)) = Some c.
Proof. now rewrite three_way_first_same. Qed.

Lemma marker_ranks_ordered p q :
  letter_version p -> letter_version q -> (p = absent <-> q = absent) ->
  exists c, three_way (marker_rank p) (marker_rank q) = Some c.
Proof.
  unfold marker_rank, absent.
  intros [->|(l & n & -> & _)] [->|(l' & n' & -> & _)] [H1 H2].
  - eexists. apply three_way_tuple_refl.
  - discriminate (H1 eq_refl).
  - discriminate (H2 eq_refl).
  - apply three_way_cons; [|eexists; reflexivity].
    apply three_way_cons; [eexists; reflexivity|].
    apply three_way_cons; eexists; reflexivity.
Qed.

Lemma local_part_ranks_ordered x y :
  local_item x -> local_item y ->
  exists c, three_way (local_part_rank x) (local_part_rank y) = Some c.
Proof.
  intros [(i & ->)|(s & ->)] [(j & ->)|(t & ->)]; cbn [local_part_rank];
    (apply three_way_cons; [eexists; reflexivity|]);
    (apply three_way_cons; eexists; reflexivity).
Qed.

Lemma local_tuples_ordered xs : forall ys,
  Forall local_item xs -> Forall local_item ys ->
  exists c, three_way (PTuple (map local_part_rank xs))
                      (PTuple (map local_part_rank ys)) = Some c.
Proof.
  induction xs as [|x xs IH]; intros [|y ys] Hx Hy;
    try (eexists; reflexivity).
  inversion Hx; inversion Hy; subst. cbn [map].
  apply three_way_cons; [now apply local_part_ranks_ordered|now apply IH].
Qed.

Lemma local_ranks_ordered la lb :
  (forall items, la = Some items -> Forall local_item items) ->
  (forall items, lb = Some items -> Forall local_item items) ->
  exists c, three_way (local_rank la) (local_rank lb) = Some c.
Proof.
  intros Ha Hb. destruct la as [xs|], lb as [ys|];
    try (eexists; reflexivity).
  apply local_tuples_ordered; auto.
Qed.

(** The answers of the six operators on two versions whose keys have
    the three-way result [c]. *)
Lemma compare_by_three_way (a b : _BaseVersion) c op :
  three_way (_key a) (_key b) = Some c ->
  _compare a (version_obj b) (py_richcompare op)
  = Return (Bool (holds op c)).
Proof.
  intros H. unfold _compare.
  now rewrite (richcompare_by_three_way op _ _ c H).
Qed.

(** X1.  [a > b] is [b < a] and [a >= b] is [b <= a] for every two
    versions, structured or legacy: the same answer, or [TypeError] on
    both sides. *)
Theorem greater_is_converse_of_less (a b : _BaseVersion) :
  __gt__ a (version_obj b) = __lt__ b (version_obj a) /\
  __ge__ a (version_obj b) = __le__ b (version_obj a).
Proof.
  unfold __gt__, __lt__, __ge__, __le__, _compare.
  destruct (richcompare_converse (_key a) (_key b)) as [-> ->]. auto.
Qed.

(** X2.  [==] never raises, also where [<] does; it is reflexive,
    symmetric and transitive, and [!=] is its negation. *)
Theorem equality_is_equivalence (a b c : _BaseVersion) :
  __eq__ a (version_obj a) = Return (Bool true) /\
  __eq__ a (version_obj b) = __eq__ b (version_obj a) /\
  (exists r, __eq__ a (version_obj b) = Return (Bool r) /\
             __ne__ a (version_obj b) = Return (Bool (negb r))) /\
  (__eq__ a (version_obj b) = Return (Bool true) ->
   __eq__ b (version_obj c) = Return (Bool true) ->
   __eq__ a (version_obj c) = Return (Bool true)).
Proof.
  unfold __eq__, __ne__, _compare.
  rewrite !richcompare_eq, richcompare_ne. cbn [bind].
  rewrite py_eq_refl, (py_eq_sym (_key a) (_key b)).
  repeat split; [eauto|].
  intros [= H1] [= H2]. apply py_eq_eq in H1, H2.
  rewrite <- H2, <- H1. now rewrite py_eq_refl.
Qed.

Lemma equality_is_equivalence_witness :
  __eq__ (a_LegacyVersion (LegacyVersion.__init__ "1.0-x"))
         (version_obj (a_LegacyVersion (LegacyVersion.__init__ "1.0-X")))
  = Return (Bool true) /\
  __eq__ (a_LegacyVersion (LegacyVersion.__init__ "1.0-X"))
         (version_obj (a_LegacyVersion (LegacyVersion.__init__ "1.0.0-x")))
  = Return (Bool true) /\
  __eq__ (a_LegacyVersion (LegacyVersion.__init__ "1.0-x"))
         (version_obj (a_LegacyVersion (LegacyVersion.__init__ "1.0.0-x")))
  = Return (Bool true).
Proof.
  split; [vm_compute; reflexivity|]. split; [vm_compute; reflexivity|].
  apply (equality_is_equivalence
           (a_LegacyVersion (LegacyVersion.__init__ "1.0-x"))
           (a_LegacyVersion (LegacyVersion.__init__ "1.0-X"))
           (a_LegacyVersion (LegacyVersion.__init__ "1.0.0-x")));
    vm_compute; reflexivity.
Defined.

(** X3.  The epoch comes first: a structured version with a smaller
    epoch is below one with a larger epoch whatever their releases and
    markers are, and none of the six operators raises on the pair. *)
Theorem epoch_dominates (sa sb : string) (a b : Version.t) (op : cmpop) :
  Version.__init__ sa = Return a ->
  Version.__init__ sb = Return b ->
  (epoch (Version._version a) < epoch (Version._version b))%Z ->
  _compare (a_Version a) (version_obj (a_Version b)) (py_richcompare op)
  = Return (Bool (holds op Lt)) /\
  _compare (a_Version b) (version_obj (a_Version a)) (py_richcompare op)
  = Return (Bool (holds op Gt)).
Proof.
  intros Ha Hb Hlt.
  pose proof (built_key_strips _ (Version_init_built _ _ Ha)) as Ka.
  pose proof (built_key_strips _ (Version_init_built _ _ Hb)) as Kb.
  split; apply compare_by_three_way; cbn [_key]; rewrite Ka, Kb;
    rewrite three_way_first_differs
      by (cbn [py_eq]; apply Z.eqb_neq; lia);
    cbn [three_way]; f_equal.
  - now apply Z.compare_lt_iff.
  - apply Z.compare_gt_iff. lia.
Qed.

Lemma epoch_dominates_witness :
  exists a b,
    Version.__init__ "2.0" = Return a /\
    Version.__init__ "1!1.0rc1" = Return b /\
    (epoch (Version._version a) < epoch (Version._version b))%Z /\
    __lt__ (a_Version a) (version_obj (a_Version b)) = Return (Bool true).
Proof.
  do 2 eexists.
  split; [vm_compute; reflexivity|]. split; [vm_compute; reflexivity|].
  split; [vm_compute; reflexivity|].
  apply (epoch_dominates "2.0" "1!1.0rc1" _ _ OpLt);
    vm_compute; reflexivity.
Defined.

(** X4.  With equal epochs the release comes next: when the releases
    differ after their trailing zeros are dropped, each of the six
    operators answers by the lexicographic order of the two trimmed
    releases, whatever the markers are, and does not raise. *)
Theorem release_decides (sa sb : string) (a b : Version.t) (op : cmpop) :
  Version.__init__ sa = Return a ->
  Version.__init__ sb = Return b ->
  epoch (Version._version a) = epoch (Version._version b) ->
  strip_trailing_zeros (release (Version._version a)) <>
  strip_trailing_zeros (release (Version._version b)) ->
  _compare (a_Version a) (version_obj (a_Version b)) (py_richcompare op)
  = Return (Bool (holds op
      (lex_compare Z.compare
         (strip_trailing_zeros (release (Version._version a)))
         (strip_trailing_zeros (release (Version._version b)))))).
Proof.
  intros Ha Hb He Hne.
  pose proof (built_key_strips _ (Version_init_built _ _ Ha)) as Ka.
  pose proof (built_key_strips _ (Version_init_built _ _ Hb)) as Kb.
  apply compare_by_three_way. cbn [_key]. rewrite Ka, Kb, He.
  rewrite three_way_first_same, three_way_first_differs.
  - apply three_way_ints.
  - apply not_true_iff_false. intros E. apply py_eq_eq in E.
    pose proof (three_way_ints
                  (strip_trailing_zeros (release (Version._version a)))
                  (strip_trailing_zeros (release (Version._version b))))
      as T.
    rewrite E in T. apply three_way_same in T.
    now apply lex_compare_Eq_Z in T.
Qed.

Lemma release_decides_witness :
  exists a b,
    Version.__init__ "1.2.0a1" = Return a /\
    Version.__init__ "1.10" = Return b /\
    __lt__ (a_Version a) (version_obj (a_Version b)) = Return (Bool true).
Proof.
  do 2 eexists.
  split; [vm_compute; reflexivity|]. split; [vm_compute; reflexivity|].
  refine (release_decides "1.2.0a1" "1.10" _ _ OpLt _ _ _ _);
    try (vm_compute; reflexivity).
  vm_compute. discriminate.
Defined.

(** X5.  Two structured versions that differ only by trailing zeros of
    the release are equal, and ordering them does not raise: [==],
    [<=] and [>=] are true, [<], [>] and [!=] false. *)
Theorem trailing_zeros_equal (sa sb : string) (a b : Version.t)
        (op : cmpop) :
  Version.__init__ sa = Return a ->
  Version.__init__ sb = Return b ->
  epoch (Version._version a) = epoch (Version._version b) ->
  strip_trailing_zeros (release (Version._version a)) =
  strip_trailing_zeros (release (Version._version b)) ->
  pre (Version._version a) = pre (Version._version b) ->
  post (Version._version a) = post (Version._version b) ->
  dev (Version._version a) = dev (Version._version b) ->
  local (Version._version a) = local (Version._version b) ->
  _compare (a_Version a) (version_obj (a_Version b)) (py_richcompare op)
  = Return (Bool (holds op Eq)).
Proof.
  intros Ha Hb E1 E2 E3 E4 E5 E6.
  pose proof (built_key_strips _ (Version_init_built _ _ Ha)) as Ka.
  pose proof (built_key_strips _ (Version_init_built _ _ Hb)) as Kb.
  apply compare_by_three_way. cbn [_key].
  rewrite Ka, Kb, E1, E2, E3, E4, E5, E6. apply three_way_tuple_refl.
Qed.

Lemma trailing_zeros_equal_witness :
  exists a b,
    Version.__init__ "1.0+x" = Return a /\
    Version.__init__ "1.0.0.0+x" = Return b /\
    __le__ (a_Version a) (version_obj (a_Version b)) = Return (Bool true).
Proof.
  do 2 eexists.
  split; [vm_compute; reflexivity|]. split; [vm_compute; reflexivity|].
  refine (trailing_zeros_equal "1.0+x" "1.0.0.0+x" _ _ OpLe
            _ _ _ _ _ _ _ _);
    vm_compute; reflexivity.
Defined.

(** X6.  Where the ordering works: two structured versions with the
    same markers present (each of pre, post and dev is present in both
    or absent in both) are comparable.  There is one three-way result
    that the six operators all follow, so exactly one of [a < b],
    [a == b], [a > b] is true and nothing raises. *)
Theorem same_shape_ordered (sa sb : string) (a b : Version.t) :
  Version.__init__ sa = Return a ->
  Version.__init__ sb = Return b ->
  same_shape a b ->
  exists c, forall op,
    _compare (a_Version a) (version_obj (a_Version b)) (py_richcompare op)
    = Return (Bool (holds op c)).
Proof.
  intros Ha Hb (Spre & Spost & Sdev).
  pose proof (Version_init_built _ _ Ha) as Ba.
  pose proof (Version_init_built _ _ Hb) as Bb.
  pose proof (built_key_strips _ Ba) as Ka.
  pose proof (built_key_strips _ Bb) as Kb.
  destruct Ba as [_ Pa POa Da La _], Bb as [_ Pb POb Db Lb _].
  assert (T : exists c,
             three_way (_key (a_Version a)) (_key (a_Version b)) = Some c).
  { cbn [_key]. rewrite Ka, Kb.
    apply three_way_cons; [eexists; reflexivity|].
    apply three_way_cons; [eexists; apply three_way_ints|].
    apply three_way_cons; [now apply marker_ranks_ordered|].
    apply three_way_cons; [now apply marker_ranks_ordered|].
    apply three_way_cons; [now apply marker_ranks_ordered|].
    apply three_way_cons; [now apply local_ranks_ordered|].
    eexists; reflexivity. }
  destruct T as [c T]. exists c. intros op.
  now apply compare_by_three_way.
Qed.

Lemma same_shape_ordered_witness :
  exists a b c,
    Version.__init__ "1.0a2.dev3" = Return a /\
    Version.__init__ "1.0b1.dev0+local" = Return b /\
    same_shape a b /\
    forall op,
      _compare (a_Version a) (version_obj (a_Version b)) (py_richcompare op)
      = Return (Bool (holds op c)).
Proof.
  assert (Ha : exists a, Version.__init__ "1.0a2.dev3" = Return a)
    by (eexists; vm_compute; reflexivity).
  assert (Hb : exists b, Version.__init__ "1.0b1.dev0+local" = Return b)
    by (eexists; vm_compute; reflexivity).
  destruct Ha as [a Ha], Hb as [b Hb].
  assert (S : same_shape a b).
  { vm_compute in Ha, Hb. injection Ha as <-. injection Hb as <-.
    repeat split; discriminate. }
  destruct (same_shape_ordered _ _ a b Ha Hb S) as [c Hc].
  exists a, b, c. auto.
Defined.

(* ================================================================= *)
(** ** The order of legacy versions *)

Lemma string_compare_refl x : String.compare x x = Eq.
Proof. now apply OrderedTypeEx.String_as_OT.cmp_eq. Qed.

Lemma string_compare_lt_trans x y z :
  String.compare x y = Lt -> String.compare y z = Lt ->
  String.compare x z = Lt.
Proof.
  intros H1 H2.
  apply OrderedTypeEx.String_as_OT.cmp_lt in H1, H2.
  apply OrderedTypeEx.String_as_OT.cmp_lt.
  eapply OrderedTypeEx.String_as_OT.lt_trans; eassumption.
Qed.

Lemma lex_compare_lt_trans xs : forall ys zs,
  lex_compare String.compare xs ys = Lt ->
  lex_compare String.compare ys zs = Lt ->
  lex_compare String.compare xs zs = Lt.
Proof.
  induction xs as [|x xs IH]; intros [|y ys] [|z zs]; simpl;
    try discriminate; auto.
  destruct (String.compare x y) eqn:Exy; try discriminate;
    destruct (String.compare y z) eqn:Eyz; try discriminate; intros H1 H2.
  - apply String.compare_eq_iff in Exy, Eyz. subst.
    rewrite string_compare_refl. eapply IH; eassumption.
  - apply String.compare_eq_iff in Exy. subst. now rewrite Eyz.
  - apply String.compare_eq_iff in Eyz. subst. now rewrite Exy.
  - now rewrite (string_compare_lt_trans _ _ _ Exy Eyz).
Qed.

Lemma three_way_strs xs : forall ys,
  three_way (PTuple (map PStr xs)) (PTuple (map PStr ys)) =
  Some (lex_compare String.compare xs ys).
Proof.
  induction xs as [|x xs IH]; intros [|y ys]; try reflexivity.
  cbn [map lex_compare].
  destruct (String.eqb_spec x y) as [->|Hne].
  - rewrite three_way_first_same, string_compare_refl. apply IH.
  - rewrite three_way_first_differs
      by (cbn [py_eq]; now apply String.eqb_neq).
    cbn [three_way]. destruct (String.compare x y) eqn:E; try reflexivity.
    now apply String.compare_eq_iff in E.
Qed.

Lemma legacy_three_way x y :
  three_way (LegacyVersion._key (LegacyVersion.__init__ x))
            (LegacyVersion._key (LegacyVersion.__init__ y))
  = Some (lex_compare String.compare (legacy_parts x) (legacy_parts y)).
Proof.
  cbn [LegacyVersion._key LegacyVersion.__init__].
  change (_legacy_cmpkey x)
    with (PTuple [PInt (-1); PTuple (map PStr (legacy_parts x))]).
  change (_legacy_cmpkey y)
    with (PTuple [PInt (-1); PTuple (map PStr (legacy_parts y))]).
  rewrite three_way_first_same.
  pose proof (three_way_strs (legacy_parts x) (legacy_parts y)) as T.
  destruct (py_eq (PTuple (map PStr (legacy_parts x)))
                  (PTuple (map PStr (legacy_parts y)))) eqn:E.
  - apply py_eq_eq in E. rewrite E in T |- *.
    rewrite three_way_tuple_refl. apply three_way_same in T.
    now rewrite T.
  - rewrite three_way_first_differs by assumption. exact T.
Qed.

(** X7.  Legacy versions are totally ordered: the six operators never
    raise on two legacy versions and all follow the lexicographic order
    of the two lists of key parts (each part compared as text), so
    exactly one of [a < b], [a == b], [a > b] is true; and [<] is
    transitive. *)
Theorem legacy_total_order (x y z : string) :
  (forall op,
      _compare (a_LegacyVersion (LegacyVersion.__init__ x))
               (version_obj (a_LegacyVersion (LegacyVersion.__init__ y)))
               (py_richcompare op)
      = Return (Bool (holds op (lex_compare String.compare
                                  (legacy_parts x) (legacy_parts y))))) /\
  (__lt__ (a_LegacyVersion (LegacyVersion.__init__ x))
          (version_obj (a_LegacyVersion (LegacyVersion.__init__ y)))
   = Return (Bool true) ->
   __lt__ (a_LegacyVersion (LegacyVersion.__init__ y))
          (version_obj (a_LegacyVersion (LegacyVersion.__init__ z)))
   = Return (Bool true) ->
   __lt__ (a_LegacyVersion (LegacyVersion.__init__ x))
          (version_obj (a_LegacyVersion (LegacyVersion.__init__ z)))
   = Return (Bool true)).
Proof.
  assert (H : forall u v op,
             _compare (a_LegacyVersion (LegacyVersion.__init__ u))
                      (version_obj (a_LegacyVersion (LegacyVersion.__init__ v)))
                      (py_richcompare op)
             = Return (Bool (holds op (lex_compare String.compare
                                         (legacy_parts u) (legacy_parts v))))).
  { intros u v op. apply compare_by_three_way. apply legacy_three_way. }
  split; [apply H|]. unfold __lt__. rewrite !H.
  intros [= H1] [= H2]. do 2 f_equal.
  destruct (lex_compare String.compare (legacy_parts x) (legacy_parts y))
    eqn:E1; try discriminate.
  destruct (lex_compare String.compare (legacy_parts y) (legacy_parts z))
    eqn:E2; try discriminate.
  now rewrite (lex_compare_lt_trans _ _ _ E1 E2).
Qed.

Lemma legacy_total_order_witness :
  __lt__ (a_LegacyVersion (LegacyVersion.__init__ "1.0-alpha"))
         (version_obj (a_LegacyVersion (LegacyVersion.__init__ "1.0-beta")))
  = Return (Bool true) /\
  __lt__ (a_LegacyVersion (LegacyVersion.__init__ "1.0-beta"))
         (version_obj (a_LegacyVersion (LegacyVersion.__init__ "1.0-final")))
  = Return (Bool true) /\
  __lt__ (a_LegacyVersion (LegacyVersion.__init__ "1.0-alpha"))
         (version_obj (a_LegacyVersion (LegacyVersion.__init__ "1.0-final")))
  = Return (Bool true).
Proof.
  split; [vm_compute; reflexivity|]. split; [vm_compute; reflexivity|].
  apply (legacy_total_order "1.0-alpha" "1.0-beta" "1.0-final");
    vm_compute; reflexivity.
Defined.

(* ================================================================= *)
(** ** The parts of a legacy key *)

Lemma pop_while_app x l y :
  pop_while x (l ++ [y]) =
  if String.eqb y x then pop_while x l else l ++ [y].
Proof.
  induction l as [|a l IH]; simpl.
  - reflexivity.
  - rewrite IH. destruct (String.eqb y x); [reflexivity|].
    destruct (l ++ [y]) eqn:E; [|reflexivity].
    now apply app_eq_nil in E.
Qed.

Lemma pop_while_incl x z l : In z (pop_while x l) -> In z l.
Proof.
  induction l as [|a l IH] using rev_ind; [auto|].
  rewrite pop_while_app. destruct (String.eqb a x); [|auto].
  intros H. apply in_or_app. left. auto.
Qed.

(** [clean acc]: once the zeros at the end of [acc] are popped, none
    is left. *)
Lemma extract_parts_clean acc part :
  ~ In "00000000" (pop_while "00000000" acc) ->
  ~ In "00000000" (pop_while "00000000" (extract_parts acc part)).
Proof.
  intros H. unfold extract_parts.
  assert (H' : ~ In "00000000"
                 (pop_while "00000000"
                    (if String.ltb part "*final"
                     then pop_while "*final-" acc else acc))).
  { destruct (String.ltb part "*final"); [|exact H].
    induction acc as [|a acc IH] using rev_ind; [exact H|].
    rewrite (pop_while_app "*final-").
    destruct (String.eqb a "*final-") eqn:Ea.
    - apply String.eqb_eq in Ea. subst a.
      rewrite pop_while_app in H. cbn [String.eqb Ascii.eqb Bool.eqb] in H.
      apply IH. intros Hin. apply H. apply in_or_app. left.
      eapply pop_while_incl; eassumption.
    - exact H. }
  rewrite pop_while_app. destruct (String.eqb part "00000000") eqn:Ep.
  - intros Hin. apply H'. eapply pop_while_incl; eassumption.
  - intros Hin. apply in_app_or in Hin. destruct Hin as [Hin|[Hin|[]]].
    + auto.
    + subst part. discriminate Ep.
Qed.

Lemma fold_extract_parts_clean parts : forall acc,
  ~ In "00000000" (pop_while "00000000" acc) ->
  ~ In "00000000"
      (pop_while "00000000"
         (fold_left
            (fun parts part =>
               if String.prefix "*" part then extract_parts parts part
               else extract_parts parts part) parts acc)).
Proof.
  induction parts as [|p parts IH]; intros acc H; simpl; [exact H|].
  apply IH. destruct (String.prefix "*" p); now apply extract_parts_clean.
Qed.

Lemma legacy_parts_final s :
  exists acc,
    legacy_parts s = pop_while "00000000" acc ++ ["*final"] /\
    ~ In "00000000" (pop_while "00000000" acc).
Proof.
  unfold legacy_parts, _parse_version_parts.
  rewrite fold_left_app. cbn [fold_left].
  match goal with
  | |- context [fold_left ?f ?l []] => set (acc := fold_left f l [])
  end.
  exists acc. split; [reflexivity|].
  apply fold_extract_parts_clean. simpl. tauto.
Qed.

(** X8.  No part of a legacy key is the all-zero number ["00000000"]:
    a zero component is dropped wherever it stands, also between two
    other numbers, so that for instance the legacy versions of
    ["1.0.5-x"] and ["1.5-x"] are equal.  The last part is always
    ["*final"]. *)
Theorem legacy_key_has_no_zero_part (s : string) :
  ~ In "00000000" (legacy_parts s) /\
  last (legacy_parts s) "" = "*final" /\
  LegacyVersion._key (LegacyVersion.__init__ s) =
    PTuple [PInt (-1); PTuple (map PStr (legacy_parts s))] /\
  __eq__ (a_LegacyVersion (LegacyVersion.__init__ "1.0.5-x"))
         (version_obj (a_LegacyVersion (LegacyVersion.__init__ "1.5-x")))
  = Return (Bool true).
Proof.
  destruct (legacy_parts_final s) as (acc & E & H).
  split; [|split; [|split; [reflexivity|vm_compute; reflexivity]]].
  - rewrite E. intros Hin. apply in_app_or in Hin.
    destruct Hin as [Hin|[Hin|[]]]; [auto|discriminate].
  - rewrite E. apply last_last.
Qed.

Lemma lower_char_idem c : lower_char (lower_char c) = lower_char c.
Proof. destruct c as [[] [] [] [] [] [] [] []]; reflexivity. Qed.

Lemma lower_idem s : lower (lower s) = lower s.
Proof.
  induction s as [|c s IH]; simpl; [reflexivity|].
  now rewrite lower_char_idem, IH.
Qed.

(** X9.  Legacy versions ignore case: two texts that are equal once
    lowered have the same legacy key, so their legacy versions are
    equal under all six operators; in particular a text and its lowered
    form. *)
Theorem legacy_ignores_case (s t : string) (op : cmpop) :
  lower s = lower t ->
  _legacy_cmpkey s = _legacy_cmpkey t /\
  _legacy_cmpkey (lower s) = _legacy_cmpkey s /\
  _compare (a_LegacyVersion (LegacyVersion.__init__ s))
           (version_obj (a_LegacyVersion (LegacyVersion.__init__ t)))
           (py_richcompare op)
  = Return (Bool (holds op Eq)).
Proof.
  intros H.
  assert (K : _legacy_cmpkey s = _legacy_cmpkey t)
    by (unfold _legacy_cmpkey; now rewrite H).
  split; [exact K|]. split.
  - unfold _legacy_cmpkey. now rewrite lower_idem.
  - apply compare_by_three_way.
    cbn [_key LegacyVersion._key LegacyVersion.__init__]. rewrite K.
    apply (three_way_tuple_refl
             [PInt (-1); PTuple (map PStr (legacy_parts t))]).
Qed.

Lemma legacy_ignores_case_witness :
  lower "Foo-BAR.1" = lower "fOO-bar.1" /\
  __eq__ (a_LegacyVersion (LegacyVersion.__init__ "Foo-BAR.1"))
         (version_obj (a_LegacyVersion (LegacyVersion.__init__ "fOO-bar.1")))
  = Return (Bool true).
Proof.
  split; [reflexivity|].
  apply (legacy_ignores_case "Foo-BAR.1" "fOO-bar.1" OpEq). reflexivity.
Defined.

(* ================================================================= *)
(** ** The string forms of a structured version *)






Lemma str_split1_spec c s :
  match str_split1 c s with
  | (a, None) => s = a /\ contains_char c s = false
  | (a, Some b) =>
      s = (a ++ String c b)%string /\ contains_char c a = false /\
      contains_char c s = true
  end.
Proof.
  induction s as [|d s IH]; simpl; [auto|].
  destruct (Ascii.eqb_spec c d) as [->|Hne].
  - simpl. auto.
  - destruct (str_split1 c s) as [a [b|]]; simpl.
    + destruct IH as (-> & Ha & Hs).
      apply Ascii.eqb_neq in Hne. rewrite ?Hne. simpl. auto.
    + destruct IH as (-> & Hs).
      apply Ascii.eqb_neq in Hne. rewrite ?Hne. simpl. auto.
Qed.

(** X11.  [public] and [local] take the string form apart at its first
    ["+"] and lose nothing: [public] has no ["+"], and the string form
    is [public] alone when [local] is [None], and [public], ["+"] and
    [local] put together otherwise. *)
Theorem public_and_local_recompose (v : Version.t) (s : string) :
  Version.__str__ v = Return s ->
  exists p,
    Version.public v = Return p /\
    contains_char "+" p = false /\
    ((Version.local v = Return None /\ s = p) \/
     (exists t, Version.local v = Return (Some t) /\
                s = (p ++ "+" ++ t)%string)).
Proof.
  intros H. unfold Version.public, Version.local. rewrite H. cbn [bind].
  pose proof (str_split1_spec "+" s) as S.
  destruct (str_split1 "+" s) as [a [b|]]; cbn [fst snd].
  - destruct S as (E & Ha & Hs). rewrite Hs.
    exists a. repeat split; auto. right. exists b. auto.
  - destruct S as (E & Hs). rewrite Hs.
    exists a. subst a. repeat split; auto.
Qed.

Lemma public_and_local_recompose_witness :
  exists v s p t,
    Version.__str__ v = Return s /\
    Version.public v = Return p /\
    Version.local v = Return (Some t) /\
    s = (p ++ "+" ++ t)%string.
Proof.
  assert (H : exists v, Version.__init__ "1.0+local.1" = Return v)
    by (eexists; vm_compute; reflexivity).
  destruct H as [v H].
  assert (S : exists s, Version.__str__ v = Return s /\
                        contains_char "+" s = true)
    by (vm_compute in H; injection H as <-; eexists; split;
        vm_compute; reflexivity).
  destruct S as (s & S & Hplus).
  destruct (public_and_local_recompose v s S) as (p & Hp & _ & [[L E]|R]).
  - exfalso. subst p. unfold Version.local in L. rewrite S in L.
    cbn [bind] in L. rewrite Hplus in L.
    pose proof (str_split1_spec "+" s) as Sp.
    destruct (str_split1 "+" s) as [a [b|]]; cbn [snd] in L;
      [discriminate L|].
    destruct Sp as [_ Sp]. rewrite Sp in Hplus. discriminate Hplus.
  - destruct R as (t & L & E). exists v, s, p, t. auto.
Defined.

(* ================================================================= *)
(** ** The branches of [_cmpkey] that [Version.__init__] never takes *)

(** X12.  The branch of [_cmpkey] for a pre field that is the text
    ["-Infinity"] or ["+Infinity"] converts it with [int] and so can
    only fail: whatever the other arguments are, the call raises
    [ValueError]. *)
Theorem cmpkey_infinity_text_raises
        (e : Z) (r : list Z) (po d : pyval) (l : option (list pyval)) :
  _cmpkey e r (PStr "-Infinity") po d l = Raise ValueError /\
  _cmpkey e r (PStr "+Infinity") po d l = Raise ValueError.
Proof. split; reflexivity. Qed.

Lemma marker_key_plain_text p :
  contains_char "-" p = false ->
  marker_key (PStr p) = Return (PTuple [PStr p; PSentinel NegativeInfinity]).
Proof. intros H. unfold marker_key. simpl. now rewrite H. Qed.

(** X13.  Called with [None] for the absent markers, as its
    [is None] branches expect, [_cmpkey] ranks a release without any
    marker below the same release with a pre-release letter: the pre
    field becomes [-Infinity] when neither post nor dev is set (and
    [Infinity] when one of them is), the reverse of what puts a final
    release after its pre-releases. *)
Theorem cmpkey_none_ranks_final_first
        (e : Z) (r : list Z) (l : option (list pyval)) (p : string) :
  contains_char "-" p = false ->
  p <> "-Infinity" -> p <> "+Infinity" ->
  exists final prerelease later,
    _cmpkey e r PNone PNone PNone l = Return final /\
    _cmpkey e r (PStr p) PNone PNone l = Return prerelease /\
    _cmpkey e r PNone (PStr "post") PNone l = Return later /\
    py_richcompare OpLt final prerelease = Return true /\
    py_richcompare OpLt prerelease later = Return true.
Proof.
  intros Hdash H1 H2. unfold _cmpkey.
  apply String.eqb_neq in H1, H2. cbn [py_eq]. rewrite H1, H2.
  cbn [orb py_or truthy String.eqb negb]. rewrite marker_key_plain_text by assumption.
  assert (Hpost : marker_key (PStr "post")
                  = Return (PTuple [PStr "post"; PSentinel NegativeInfinity]))
    by reflexivity.
  rewrite Hpost. cbn [bind sentinel_neg].
  do 3 eexists. repeat split.
  - apply (richcompare_by_three_way OpLt _ _ Lt).
    rewrite !three_way_first_same. reflexivity.
  - apply (richcompare_by_three_way OpLt _ _ Lt).
    rewrite !three_way_first_same. reflexivity.
Qed.

Lemma cmpkey_none_ranks_final_first_witness :
  exists final prerelease,
    _cmpkey 0 [1; 0]%Z PNone PNone PNone None = Return final /\
    _cmpkey 0 [1; 0]%Z (PStr "rc") PNone PNone None = Return prerelease /\
    py_richcompare OpLt final prerelease = Return true.
Proof.
  destruct (cmpkey_none_ranks_final_first 0 [1; 0]%Z None "rc")
    as (f & p & l & Hf & Hp & _ & Hlt & _);
    [reflexivity | discriminate | discriminate |].
  exists f, p. auto.
Defined.

(* ================================================================= *)
(** ** What the structured grammar asks of a text *)

Lemma has_char_append p a b :
  has_char p (a ++ b) = has_char p a || has_char p b.
Proof. unfold has_char. now rewrite all_chars_append, negb_andb. Qed.

Lemma has_char_app_l p a b :
  has_char p a = true -> has_char p (a ++ b) = true.
Proof. intros H. now rewrite has_char_append, H. Qed.

Lemma has_char_app_r p a b :
  has_char p b = true -> has_char p (a ++ b) = true.
Proof. intros H. rewrite has_char_append, H. apply orb_true_r. Qed.

Lemma isdigit_has_digit d : isdigit d = true -> has_char is_digit d = true.
Proof.
  destruct d as [|c d]; [discriminate|]. simpl. intros H.
  apply andb_true_iff in H. destruct H as [Hc _].
  unfold has_char. simpl. now rewrite Hc.
Qed.

Lemma search_from_contains r n : forall s before m,
  search_from r n before s = Some m ->
  exists w front back,
    matches r w no_groups (m_groups m) /\
    s = (front ++ w ++ back)%string.
Proof.
  induction s as [|c s IH]; intros before m H; simpl in H.
  - destruct (re_match n r "" no_groups _) as [[s' g']|] eqn:Hm;
      [|discriminate].
    injection H as <-. apply re_match_sound in Hm.
    destruct Hm as (w & s1 & g1 & E & Hm & Hk). injection Hk as <- <-.
    exists w, EmptyString, s1. auto.
  - destruct (re_match n r (String c s) no_groups _) as [[s' g']|] eqn:Hm.
    + injection H as <-. apply re_match_sound in Hm.
      destruct Hm as (w & s1 & g1 & E & Hm & Hk). injection Hk as <- <-.
      exists w, EmptyString, s1. auto.
    + apply IH in H. destruct H as (w & front & back & Hm' & ->).
      exists w, (String c front), back. auto.
Qed.

Ltac cat_inv H w1 w2 H1 H2 :=
  apply matches_Cat_inv in H;
  destruct H as (w1 & w2 & ? & -> & H1 & H2).

Lemma matches_version_has_digit w g g' :
  matches Version._regex w g g' -> has_char is_digit w = true.
Proof.
  intros H. unfold Version._regex in H. cbn [seq] in H.
  cat_inv H w1 r1 H1 H. cat_inv H w2 r2 H2 H. cat_inv H wv r3 Hv H.
  unfold VERSION_PATTERN in Hv. cbn [seq] in Hv.
  cat_inv Hv wa ra Ha Hv. cat_inv Hv wc rc Hc Hv'.
  cat_inv Hc we re He Hc. cat_inv Hc wr rr Hr Hc.
  unfold release_re in Hr. apply matches_Group_inv in Hr.
  destruct Hr as [g1 Hr]. cat_inv Hr d rd Hd Hr.
  apply matches_digits, isdigit_has_digit in Hd.
  apply has_char_app_r, has_char_app_r, has_char_app_l, has_char_app_r,
    has_char_app_l, has_char_app_r, has_char_app_l, has_char_app_l.
  exact Hd.
Qed.

(** X14.  A text without any decimal digit is never a structured
    version: [Version] raises [InvalidVersion] on it and [parse]
    returns the legacy version of the text. *)
Theorem no_digit_is_legacy (s : string) :
  has_char is_digit s = false ->
  Version.__init__ s = Raise InvalidVersion /\
  parse s = Return (a_LegacyVersion (LegacyVersion.__init__ s)).
Proof.
  intros H.
  assert (E : Version.__init__ s = Raise InvalidVersion).
  { unfold Version.__init__.
    destruct (re_search Version._regex s) as [m|] eqn:Hs; [|reflexivity].
    apply search_from_contains in Hs.
    destruct Hs as (w & front & back & Hm & ->).
    apply matches_version_has_digit in Hm.
    rewrite !has_char_append, Hm, orb_true_r in H. discriminate H. }
  split; [exact E|]. unfold parse. now rewrite E.
Qed.

Lemma no_digit_is_legacy_witness :
  has_char is_digit "v.alpha+beta" = false /\
  parse "v.alpha+beta"
  = Return (a_LegacyVersion (LegacyVersion.__init__ "v.alpha+beta")).
Proof.
  split; [reflexivity|].
  apply (no_digit_is_legacy "v.alpha+beta"). reflexivity.
Defined.




















(* ================================================================= *)
(** ** Padded numbers compare as numbers *)

















